(** * Corepack engine: version resolution and activation

    A shallow embedding of [sources/Engine.ts]: the Last-Known-Good store,
    the descriptor resolver, the project-spec locator and the request
    dispatcher, followed by the properties of the specification that were
    checked against them.

    Conventions of the embedding.
    - A JS value that may be [undefined] or [null] is an [option].
    - A JS object used as a dictionary is a [gmap string _]; only own
      properties are modelled. The Last-Known-Good store is the object that
      [JSON.parse] made of the file, a plain object or an Array: see [Store].
      The names under which the engine reads and sets it are taken to be
      names of package managers: see [store_set] for the two names whose
      assignment is not an ordinary one.
    - A string is the UTF-8 encoding of the JS string.
    - An [async] function is a computation in the monad [M]: it threads the
      [World] (the Last-Known-Good file and the trace of calls made to the
      outside), and ends in a value or in a thrown exception.
    - Everything the engine imports (semver, corepackUtils, specUtils,
      folderUtils, the JSON and fs built-ins, process.env) is a field of the
      environment [Env]; each call to a collaborator that touches the file
      system, the network or a subprocess leaves an [event] in the trace.
      The Last-Known-Good file of the [World] is followed through the reads
      and writes that Engine.ts makes itself; what a collaborator does on
      the disk is not.
    - Diagnostic output (debugUtils.log, console.error) is not modelled. *)

From Stdlib Require Import Ascii.
From stdpp Require Import gmap strings list fin_maps pretty.

Set Warnings "-register-all,-clear-no-such-hyp".
Set Default Proof Using "Type".

(** ** Strings *)

Definition dquote : string := String (ascii_of_nat 34) EmptyString.

(** A template literal hole [${x}] applied to a value that may be
    [undefined]. *)
Definition tpl (x : option string) : string :=
  match x with
  | Some s => s
  | None => "undefined"
  end.

(** JS truthiness of a [string | null | undefined]. *)
Definition truthy (x : option string) : bool :=
  match x with
  | Some s => negb (String.eqb s EmptyString)
  | None => false
  end.

(** [if (x) yes(x) else no], for [x] a [string | null | undefined]. *)
Definition if_truthy {A} (x : option string) (yes : string → A) (no : A) : A :=
  match x with
  | Some s => if String.eqb s EmptyString then no else yes s
  | None => no
  end.

(** [Array.prototype.join]. *)
Fixpoint join (sep : string) (l : list string) : string :=
  match l with
  | [] => EmptyString
  | [x] => x
  | x :: rest => x +:+ sep +:+ join sep rest
  end.

(** ** Data model (types.ts) *)

Record Descriptor := { desc_name : string; desc_range : string }.

(** [reference] is typed [string], but the dispatcher builds a locator with
    [undefined as any]: [None] is that [undefined]. *)
Record Locator := { loc_name : string; loc_reference : option string }.

Inductive RegistrySpec :=
| NpmRegistry (package : string)
| UrlRegistry (url : string) (tags_field versions_field : string).

Inductive BinSpec :=
| BinList (names : list string)
| BinMap (paths : list (string * string)).

Record PackageManagerSpec := {
  spec_url : string;
  spec_bin : option BinSpec;
  spec_registry : RegistrySpec;
  spec_npmRegistry : option RegistrySpec;
}.

Record TransparentRules := {
  transparent_default : option string;
  transparent_commands : list (list string);
}.

(** [ranges] lists the range keys in the order of [Object.keys]. *)
Record PackageManagerDefinition := {
  def_default : string;
  def_fetchLatestFrom : RegistrySpec;
  def_transparent : TransparentRules;
  def_ranges : list (string * PackageManagerSpec);
}.

Record Config := { definitions : gmap string PackageManagerDefinition }.

Record InstallSpec := {
  install_location : string;
  install_bin : option BinSpec;
  install_hash : string;
}.

(** The value of [ensurePackageManager]: the install information spread
    together with the hash-fixed locator and the spec. *)
Record PreparedPackageManagerInfo := {
  prepared_install : InstallSpec;
  prepared_locator : Locator;
  prepared_spec : PackageManagerSpec;
}.

Record PackageManagerRequest := {
  packageManager : option string;
  binaryName : string;
  binaryVersion : option string;
}.

(** The three outcomes of [specUtils.loadSpec]. *)
Inductive LoadSpecResult :=
| NoProject (target : string)
| NoSpec (target : string)
| Found (target : string) (spec : Descriptor).

(** The Last-Known-Good store: the object that [getLastKnownGood] returns
    and that [activatePackageManager] sets a property of. It is typed
    [Record<string, string>] and is what [JSON.parse] made of the file: a
    plain object, or an Array. [store_props] holds its own properties whose
    value is a string, the elements of an Array among them, under their
    indices; [store_length] is the [length] of an Array, and [None] for a
    plain object. *)
Record Store := {
  store_length : option nat;
  store_props : gmap string string;
}.

(** [{}] *)
Global Instance store_empty : Empty Store :=
  {| store_length := None; store_props := ∅ |}.

(** [store[name]], when that is a string. *)
Global Instance store_lookup : Lookup string string Store :=
  λ name store, store_props store !! name.

(** ** JSON values, as [JSON.parse] produces them

    A number is carried as an integer: the engine only asks whether a parsed
    value is falsy and what its [typeof] is. *)

Inductive json :=
| JNull
| JBool (b : bool)
| JNumber (n : Z)
| JString (s : string)
| JArray (items : list json)
| JObject (props : gmap string json).

Definition json_truthy (v : json) : bool :=
  match v with
  | JNull => false
  | JBool b => b
  | JNumber n => negb (n =? 0)%Z
  | JString s => negb (String.eqb s EmptyString)
  | JArray _ | JObject _ => true
  end.

Definition json_typeof (v : json) : string :=
  match v with
  | JNull | JArray _ | JObject _ => "object"
  | JBool _ => "boolean"
  | JNumber _ => "number"
  | JString _ => "string"
  end.

Definition json_string (v : json) : option string :=
  match v with
  | JString s => Some s
  | _ => None
  end.

(** [Object.entries] of a parsed value that is an object: the properties of
    a plain object, the elements of an array under their indices (its
    [length] is not one of them). *)
Definition json_entries (v : json) : gmap string json :=
  match v with
  | JObject props => props
  | JArray items => list_to_map (imap (λ i x, (pretty i, x)) items)
  | _ => ∅
  end.

(** The [length] of a parsed Array. *)
Definition json_length (v : json) : option nat :=
  match v with
  | JArray items => Some (length items)
  | _ => None
  end.

(** What [JSON.stringify] serialises of a store: the properties of a plain
    object; of an Array its elements and nothing else, [null] standing where
    an element was deleted or never set. A property of another name that
    was set on an Array is left out. *)
Definition json_of_store (store : Store) : json :=
  match store_length store with
  | None => JObject (JString <$> store_props store)
  | Some length =>
      JArray ((λ index : nat,
                 from_option JString JNull (store_props store !! pretty index))
              <$> seq 0 length)
  end.

(** ** Exceptions, results, the world *)

Inductive exn :=
| UsageError (msg : string)
| Error (msg : string)
| TypeError (msg : string)
| SyntaxError (msg : string)
| NodeError (code : string).

(** [err?.code] *)
Definition exn_code (e : exn) : option string :=
  match e with
  | NodeError code => Some code
  | _ => None
  end.

Inductive result (A : Type) :=
| Ok (a : A)
| Throw (e : exn).
Arguments Ok {A} a.
Arguments Throw {A} e.

Inductive event :=
| ReadLastKnownGood
| MkdirHome
| WriteLastKnownGood (content : string)
| FetchAvailableTags (registry : RegistrySpec)
| FetchAvailableVersions (registry : RegistrySpec)
| FetchLatestStableVersion (registry : RegistrySpec)
| FindInstalledVersion (descriptor : Descriptor)
| InstallVersion (locator : Locator) (spec : PackageManagerSpec)
| LoadSpec (cwd : string)
| SetLocalPackageManager (dir : string) (info : PreparedPackageManagerInfo)
| RunVersion (locator : Locator) (info : PreparedPackageManagerInfo)
    (bin : string) (args : list string).

(** The calls that go to a registry. *)
Definition is_network (e : event) : bool :=
  match e with
  | FetchAvailableTags _ | FetchAvailableVersions _
  | FetchLatestStableVersion _ => true
  | _ => false
  end.

Definition is_write (e : event) : bool :=
  match e with
  | WriteLastKnownGood _ => true
  | _ => false
  end.

(** [lkg_file] is what reading lastKnownGood.json yields at this moment, as
    the reads and writes of Engine.ts leave it. *)
Record World := {
  lkg_file : result string;
  trace : list event;
}.

Definition log (e : event) (w : World) : World :=
  {| lkg_file := lkg_file w; trace := trace w ++ [e] |}.

Definition M (A : Type) : Type := World → result A * World.

Global Instance M_ret : MRet M := λ A a w, (Ok a, w).

Global Instance M_bind : MBind M := λ A B f m w,
  match m w with
  | (Ok a, w') => f a w'
  | (Throw e, w') => (Throw e, w')
  end.

Global Instance M_fmap : FMap M := λ A B f m w,
  match m w with
  | (Ok a, w') => (Ok (f a), w')
  | (Throw e, w') => (Throw e, w')
  end.

Definition throw {A} (e : exn) : M A := λ w, (Throw e, w).

(** [try { m } catch (err) { h err }] *)
Definition try_catch {A} (m : M A) (h : exn → M A) : M A := λ w,
  match m w with
  | (Ok a, w') => (Ok a, w')
  | (Throw e, w') => h e w'
  end.

(** A call to a collaborator: what it answers, and its mark in the trace.
    The answer and the mark are all that is followed of it: what the
    collaborator does on the disk is outside Engine.ts. *)
Definition call {A} (e : event) (answer : result A) : M A :=
  λ w, (answer, log e w).

(** ** The environment: everything Engine.ts imports *)

Record Env := {
  config : Config;
  process_env : string → option string;
  JSON_parse : string → result json;
  JSON_stringify : json → string;
  fs_mkdir : result unit;
  fs_writeFile : string → result unit;
  path_dirname : string → string;
  semverValid : string → option string;
  semverValidRange : string → option string;
  semverRcompare : string → string → Z;
  satisfiesWithPrereleases : option string → string → bool;
  isSupportedPackageManager : string → bool;
  isSupportedPackageManagerDescriptor : Descriptor → bool;
  isSupportedPackageManagerLocator : Locator → bool;
  getRegistryFromPackageManagerSpec : PackageManagerSpec → RegistrySpec;
  fetchAvailableTags : RegistrySpec → result (gmap string string);
  fetchAvailableVersions : RegistrySpec → result (list string);
  fetchLatestStableVersion : RegistrySpec → result string;
  findInstalledVersion : Descriptor → result (option string);
  installVersion : Locator → PackageManagerSpec → result InstallSpec;
  runVersion : Locator → PreparedPackageManagerInfo → string → list string →
               result unit;
  loadSpec : string → result LoadSpecResult;
  setLocalPackageManager : string → PreparedPackageManagerInfo → result unit;
}.

(** [process.env.X === v] *)
Definition env_is (E : Env) (var value : string) : bool :=
  bool_decide (process_env E var = Some value).

(** ** The Last-Known-Good store *)

Section LastKnownGood.
Variable E : Env.

Definition readLastKnownGoodFile : M string :=
  λ w, (lkg_file w, log ReadLastKnownGood w).

(** The body of the second [try] of [getLastKnownGood]: a parsed value
    that is truthy and whose [typeof] is [object] is returned itself, a plain
    object or an Array, once its entries that are not strings are deleted
    (the [length] of an Array stays what it was). *)
Definition storeOfParsed (parsed : json) : Store :=
  if negb (json_truthy parsed) then ∅
  else if negb (String.eqb (json_typeof parsed) "object") then ∅
  else {| store_length := json_length parsed;
          store_props := omap json_string (json_entries parsed) |}.

Definition storeOfContent (raw : string) : Store :=
  match JSON_parse E raw with
  | Ok parsed => storeOfParsed parsed
  | Throw _ => ∅
  end.

Definition getLastKnownGood : M Store :=
  raw ← try_catch (Some <$> readLastKnownGoodFile : M (option string))
        (λ err, if bool_decide (exn_code err = Some "ENOENT")
                then mret None else throw err);
  match raw with
  | None => mret ∅
  | Some raw => mret (storeOfContent raw)
  end.
End LastKnownGood.

Section StoreWrites.
Variable E : Env.

Definition newline : string := String (ascii_of_nat 10) EmptyString.

(** [fs.promises.writeFile] on lastKnownGood.json: on success the file
    holds the new content. *)
Definition writeLastKnownGoodFile (content : string) : M unit := λ w,
  match fs_writeFile E content with
  | Ok tt => (Ok tt, {| lkg_file := Ok content;
                        trace := trace w ++ [WriteLastKnownGood content] |})
  | Throw e => (Throw e, log (WriteLastKnownGood content) w)
  end.

Definition createLastKnownGoodFile (lastKnownGood : Store) : M unit :=
  let content := JSON_stringify E (json_of_store lastKnownGood) +:+ newline in
  _ ← call MkdirHome (fs_mkdir E);
  writeLastKnownGoodFile content.

Definition getLastKnownGoodFromFileContent
    (lastKnownGood : Store) (packageManager : string) : option string :=
  if bool_decide (is_Some (lastKnownGood !! packageManager))
  then lastKnownGood !! packageManager
  else None.

(** The digits of an array index: the decimal writing, with no leading
    zero, of a number below 2^32 - 1. *)
Definition digit_value (c : ascii) : option N :=
  let n := N_of_ascii c in
  if (48 <=? n)%N && (n <=? 57)%N then Some (n - 48)%N else None.

Fixpoint decimal_value (acc : N) (s : string) : option N :=
  match s with
  | EmptyString => Some acc
  | String c rest =>
      match digit_value c with
      | Some d => decimal_value (10 * acc + d) rest
      | None => None
      end
  end.

Definition array_index (name : string) : option nat :=
  match decimal_value 0 name with
  | Some n =>
      if String.eqb (pretty n) name && (n <? 4294967295)%N
      then Some (N.to_nat n) else None
  | None => None
  end.

(** [lastKnownGood[name] = reference], for the name of a package manager.
    A property set to [undefined] reads as [undefined] and is left out by
    [JSON.stringify], like a property that is not there. On an Array, a
    name that is an index sets an element, and lengthens the Array when the
    index is past its end. Two names are not assigned this way in JS and are
    assigned like the others here: [__proto__], whose assignment sets no
    property, and the [length] of an Array, whose assignment resizes the
    Array or throws. *)
Definition store_set (lastKnownGood : Store) (name : string)
    (reference : option string) : Store :=
  {| store_length :=
       match store_length lastKnownGood, array_index name with
       | Some length, Some index => Some (length `max` S index)
       | length, _ => length
       end;
     store_props :=
       match reference with
       | Some v => <[name := v]> (store_props lastKnownGood)
       | None => delete name (store_props lastKnownGood)
       end |}.

(** [store[name] = v], written [<[name := v]> store]. *)
Global Instance store_insert : Insert string string Store :=
  λ name v store, store_set store name (Some v).

(** The store object is mutated before the file is written, and whether or
    not the write succeeds: the first component is the object after the
    call, the second what the call awaits. *)
Definition activatePackageManager (lastKnownGood : Store) (locator : Locator)
    : Store * M unit :=
  if bool_decide (lastKnownGood !! loc_name locator = loc_reference locator)
  then (lastKnownGood, mret tt)
  else
    let lastKnownGood' :=
      store_set lastKnownGood (loc_name locator) (loc_reference locator) in
    (lastKnownGood', createLastKnownGoodFile lastKnownGood').
End StoreWrites.

(** ** Arrays *)

(** [[...new Set(l)]]: the first occurrence of every element, in order. *)
Fixpoint uniq (l : list string) : list string :=
  match l with
  | [] => []
  | x :: rest => x :: filter (λ y, y ≠ x) (uniq rest)
  end.

(** [Array.prototype.sort] with a comparator: a stable sort, [a] staying
    before [b] when [cmp a b <= 0]. *)
Fixpoint sort_insert {A} (cmp : A → A → Z) (x : A) (sorted : list A) : list A :=
  match sorted with
  | [] => [x]
  | y :: rest =>
      if (cmp x y <=? 0)%Z then x :: y :: rest
      else y :: sort_insert cmp x rest
  end.

Fixpoint sort {A} (cmp : A → A → Z) (l : list A) : list A :=
  match l with
  | [] => []
  | x :: rest => sort_insert cmp x (sort cmp rest)
  end.

(** [Promise.all] over promises that were all started: every call is made,
    and a rejection (the first one in the order of the list) rejects the
    whole. *)
Fixpoint promise_all {A} (promises : list (M A)) : M (list A) := λ w,
  match promises with
  | [] => (Ok [], w)
  | p :: rest =>
      let '(r, w1) := p w in
      let '(rs, w2) := promise_all rest w1 in
      (match r, rs with
       | Ok a, Ok l => Ok (a :: l)
       | Throw e, _ => Throw e
       | Ok _, Throw e => Throw e
       end, w2)
  end.

(** A synchronous result inside an [async] body. *)
Definition lift {A} (r : result A) : M A := λ w, (r, w).

(** The line terminators, which the dot of a regular expression does not
    match: the line feed, the carriage return, and the line and paragraph
    separators U+2028 and U+2029, three bytes each in UTF-8 (E2 80 A8 and
    E2 80 A9). [starts_line_terminator s] tells whether [s] begins with
    one. *)
Definition starts_line_terminator (s : string) : bool :=
  match s with
  | EmptyString => false
  | String c rest =>
      (nat_of_ascii c =? 10)%nat || (nat_of_ascii c =? 13)%nat
      || ((nat_of_ascii c =? 226)%nat
          && match rest with
             | String c1 (String c2 _) =>
                 (nat_of_ascii c1 =? 128)%nat
                 && ((nat_of_ascii c2 =? 168)%nat || (nat_of_ascii c2 =? 169)%nat)
             | _ => false
             end)
  end.

(** What [.*] leaves: the string from its first line terminator on. *)
Fixpoint drop_line (s : string) : string :=
  match s with
  | EmptyString => EmptyString
  | String c rest => if starts_line_terminator s then s else drop_line rest
  end.

(** [reference.replace(/\+.*/, ``)]: the first [+] goes, with everything up
    to the end of its line. *)
Fixpoint strip_hash (s : string) : string :=
  match s with
  | EmptyString => EmptyString
  | String c rest =>
      if (nat_of_ascii c =? 43)%nat then drop_line rest
      else String c (strip_hash rest)
  end.

(** ** The engine *)

Module Engine.
Section Methods.
Variable E : Env.

Definition unsupported (name : string) : exn :=
  UsageError ("This package manager (" +:+ name +:+
              ") isn't supported by this corepack build").

Definition range_keys (definition : PackageManagerDefinition) : list string :=
  fst <$> def_ranges definition.

(** [definition.ranges[range]] *)
Definition ranges_get (definition : PackageManagerDefinition)
    (range : option string) : option PackageManagerSpec :=
  range ← range;
  snd <$> find (λ kv, bool_decide (kv.1 = range)) (def_ranges definition).

(** The registry of a range spec; the spec is [undefined] when the
    definition declares no range. *)
Definition registryOf (packageManagerSpec : option PackageManagerSpec)
    : result RegistrySpec :=
  match packageManagerSpec with
  | Some s => Ok (getRegistryFromPackageManagerSpec E s)
  | None => Throw (TypeError "Cannot read properties of undefined")
  end.

Definition getPackageManagerSpecFor (locator : Locator)
    : result PackageManagerSpec :=
  if negb (isSupportedPackageManagerLocator E locator) then
    let url := tpl (loc_reference locator) in
    Ok {| spec_url := url;
          spec_bin := None;
          spec_registry := UrlRegistry url EmptyString EmptyString;
          spec_npmRegistry := None |}
  else
    match definitions (config E) !! loc_name locator with
    | None => Throw (unsupported (loc_name locator))
    | Some definition =>
        let ranges := reverse (range_keys definition) in
        match find (λ range,
                satisfiesWithPrereleases E (loc_reference locator) range)
                ranges with
        | None =>
            Throw (Error ("Assertion failed: Specified resolution (" +:+
                          tpl (loc_reference locator) +:+
                          ") isn't supported by any of " +:+
                          join ", " ranges))
        | Some range =>
            match ranges_get definition (Some range) with
            | Some s => Ok s
            | None => Throw (TypeError "Cannot read properties of undefined")
            end
        end
    end.

Definition getDefaultVersion (packageManager : string) : M string :=
  match definitions (config E) !! packageManager with
  | None => throw (unsupported packageManager)
  | Some definition =>
      lastKnownGood ← getLastKnownGood E;
      let lastKnownGoodForThisPackageManager :=
        getLastKnownGoodFromFileContent lastKnownGood packageManager in
      if_truthy lastKnownGoodForThisPackageManager mret
        (if env_is E "COREPACK_DEFAULT_TO_LATEST" "0"
         then mret (def_default definition)
         else
           reference ← call
             (FetchLatestStableVersion (def_fetchLatestFrom definition))
             (fetchLatestStableVersion E (def_fetchLatestFrom definition));
           _ ← try_catch
                 (activatePackageManager E lastKnownGood
                    {| loc_name := packageManager;
                       loc_reference := Some reference |}).2
                 (λ _, mret tt);
           mret reference)
  end.

Definition activatePackageManager (locator : Locator) : M unit :=
  lastKnownGood ← getLastKnownGood E;
  (activatePackageManager E lastKnownGood locator).2.

Definition ensurePackageManager (locator : Locator)
    : M PreparedPackageManagerInfo :=
  spec ← lift (getPackageManagerSpecFor locator);
  packageManagerInfo ← call (InstallVersion locator spec)
                            (installVersion E locator spec);
  match loc_reference locator with
  | None => throw (TypeError "Cannot read properties of undefined")
  | Some reference =>
      let noHashReference := strip_hash reference in
      let fixedHashReference :=
        noHashReference +:+ "+" +:+ install_hash packageManagerInfo in
      let fixedHashLocator :=
        {| loc_name := loc_name locator;
           loc_reference := Some fixedHashReference |} in
      mret {| prepared_install := packageManagerInfo;
              prepared_locator := fixedHashLocator;
              prepared_spec := spec |}
  end.

Definition illegalCustomURL (descriptor : Descriptor) : exn :=
  UsageError ("Illegal use of URL for known package manager. Instead, " +:+
              "select a specific version, or set " +:+
              "COREPACK_ENABLE_UNSAFE_CUSTOM_URLS=1 in your environment (" +:+
              desc_name descriptor +:+ "@" +:+ desc_range descriptor +:+ ")").

Definition tagsNotAllowed : exn :=
  UsageError "Packages managers can't be referenced via tags in this context".

Definition tagNotFound (range : string) : exn :=
  UsageError ("Tag not found (" +:+ range +:+ ")").

(** The body of the [if] that replaces a tag by the version it names. *)
Definition resolveTag (definition : PackageManagerDefinition)
    (descriptor : Descriptor) (allowTags : bool) : M Descriptor :=
  if negb allowTags then throw tagsNotAllowed
  else
    let ranges := range_keys definition in
    let tagRange := last ranges in
    let packageManagerSpec := ranges_get definition tagRange in
    registry ← lift (registryOf packageManagerSpec);
    tags ← call (FetchAvailableTags registry) (fetchAvailableTags E registry);
    match tags !! desc_range descriptor with
    | None => throw (tagNotFound (desc_range descriptor))
    | Some version =>
        mret {| desc_name := desc_name descriptor; desc_range := version |}
    end.

(** The callback mapped over the range keys. *)
Definition fetchRange (definition : PackageManagerDefinition)
    (finalDescriptor : Descriptor) (range : string) : M (list string) :=
  let packageManagerSpec := ranges_get definition (Some range) in
  registry ← lift (registryOf packageManagerSpec);
  versions ← call (FetchAvailableVersions registry)
                  (fetchAvailableVersions E registry);
  mret (filter (λ version,
          satisfiesWithPrereleases E (Some version)
            (desc_range finalDescriptor) = true) versions).

(** What follows the tag lookup, from the working descriptor on. *)
Definition resolveFinal (definition : PackageManagerDefinition)
    (finalDescriptor : Descriptor) (useCache : bool) : M (option Locator) :=
  cachedVersion ← call (FindInstalledVersion finalDescriptor)
                       (findInstalledVersion E finalDescriptor);
  if bool_decide (cachedVersion ≠ None) && useCache then
    mret (Some {| loc_name := desc_name finalDescriptor;
                  loc_reference := cachedVersion |})
  else if truthy (semverValid E (desc_range finalDescriptor)) then
    mret (Some {| loc_name := desc_name finalDescriptor;
                  loc_reference := Some (desc_range finalDescriptor) |})
  else
    versions ← promise_all
      (fetchRange definition finalDescriptor <$> range_keys definition);
    let highestVersion := sort (semverRcompare E) (uniq (concat versions)) in
    match highestVersion with
    | [] => mret None
    | highest :: _ =>
        mret (Some {| loc_name := desc_name finalDescriptor;
                      loc_reference := Some highest |})
    end.

Definition resolveDescriptor (descriptor : Descriptor)
    (allowTags useCache : bool) : M (option Locator) :=
  if negb (isSupportedPackageManagerDescriptor E descriptor) then
    if negb (env_is E "COREPACK_ENABLE_UNSAFE_CUSTOM_URLS" "1")
       && isSupportedPackageManager E (desc_name descriptor)
    then throw (illegalCustomURL descriptor)
    else mret (Some {| loc_name := desc_name descriptor;
                       loc_reference := Some (desc_range descriptor) |})
  else
    match definitions (config E) !! desc_name descriptor with
    | None => throw (unsupported (desc_name descriptor))
    | Some definition =>
        finalDescriptor ←
          (if negb (truthy (semverValid E (desc_range descriptor)))
              && negb (truthy (semverValidRange E (desc_range descriptor)))
           then resolveTag definition descriptor allowTags
           else mret descriptor);
        resolveFinal definition finalDescriptor useCache
    end.

Definition resolutionFailed (descriptor : Descriptor) : exn :=
  UsageError ("Failed to successfully resolve '" +:+ desc_range descriptor +:+
              "' to a valid " +:+ desc_name descriptor +:+ " release").

Definition projectMismatch (spec : Descriptor) (target : string) : exn :=
  UsageError ("This project is configured to use " +:+ desc_name spec +:+
              " because " +:+ target +:+ " has a " +:+ dquote +:+
              "packageManager" +:+ dquote +:+ " field").

(** The [NoSpec] case when auto-pin is on. *)
Definition autoPin (fallbackDescriptor : Descriptor) (target : string)
    : M unit :=
  resolved ← resolveDescriptor fallbackDescriptor true true;
  match resolved with
  | None => throw (resolutionFailed fallbackDescriptor)
  | Some resolved =>
      installSpec ← ensurePackageManager resolved;
      call (SetLocalPackageManager (path_dirname E target) installSpec)
           (setLocalPackageManager E (path_dirname E target) installSpec)
  end.

(** The [while (true)] of the source leaves at its first turn, in every
    case of the [switch]. *)
Definition findProjectSpec (initialCwd : string) (locator : Locator)
    (transparent : bool) : M Descriptor :=
  let fallbackDescriptor :=
    {| desc_name := loc_name locator;
       desc_range := tpl (loc_reference locator) |} in
  if env_is E "COREPACK_ENABLE_PROJECT_SPEC" "0" then mret fallbackDescriptor
  else
    let transparent :=
      if env_is E "COREPACK_ENABLE_STRICT" "0" then true else transparent in
    result ← call (LoadSpec initialCwd) (loadSpec E initialCwd);
    match result with
    | NoProject _ => mret fallbackDescriptor
    | NoSpec target =>
        _ ← (if negb (env_is E "COREPACK_ENABLE_AUTO_PIN" "0")
             then autoPin fallbackDescriptor target
             else mret tt);
        mret fallbackDescriptor
    | Found target spec =>
        if negb (String.eqb (desc_name spec) (loc_name locator)) then
          if transparent then mret fallbackDescriptor
          else throw (projectMismatch spec target)
        else mret spec
    end.

(** [transparentPath[0] === binaryName] and every later segment equal to
    the argument at its index. *)
Definition matchesTransparentPath (binaryName : string) (args : list string)
    (transparentPath : list string) : bool :=
  bool_decide (head transparentPath = Some binaryName)
  && forallb (λ p, bool_decide (args !! p.1 = Some p.2))
             (imap pair (tail transparentPath)).

(** The first part of [executePackageManagerRequest]: the fallback
    locator and whether the command is transparent. *)
Definition fallbackFor (request : PackageManagerRequest) (args : list string)
    : M (Locator * bool) :=
  match packageManager request with
  | None =>
      mret ({| loc_name := binaryName request; loc_reference := None |},
            false)
  | Some packageManager =>
      defaultVersion ←
        if_truthy (binaryVersion request) mret
          (getDefaultVersion packageManager);
      match definitions (config E) !! packageManager with
      | None => throw (TypeError "Cannot read properties of undefined")
      | Some definition =>
          let isTransparentCommand :=
            existsb (matchesTransparentPath (binaryName request) args)
                    (transparent_commands (def_transparent definition)) in
          let fallbackReference :=
            if isTransparentCommand
            then default defaultVersion
                   (transparent_default (def_transparent definition))
            else defaultVersion in
          mret ({| loc_name := packageManager;
                   loc_reference := Some fallbackReference |},
                isTransparentCommand)
      end
  end.

(** The descriptor that [executePackageManagerRequest] hands to
    [resolveDescriptor]. *)
Definition requestDescriptor (request : PackageManagerRequest)
    (cwd : string) (args : list string) : M Descriptor :=
  '(fallbackLocator, isTransparentCommand) ← fallbackFor request args;
  descriptor ← findProjectSpec cwd fallbackLocator isTransparentCommand;
  mret (if_truthy (binaryVersion request)
          (λ version, {| desc_name := desc_name descriptor;
                         desc_range := version |})
          descriptor).

(** Resolution, installation and hand-over of that descriptor. *)
Definition resolveAndRun (descriptor : Descriptor) (binaryName : string)
    (args : list string) : M unit :=
  resolved ← resolveDescriptor descriptor true true;
  match resolved with
  | None => throw (resolutionFailed descriptor)
  | Some resolved =>
      installSpec ← ensurePackageManager resolved;
      call (RunVersion resolved installSpec binaryName args)
           (runVersion E resolved installSpec binaryName args)
  end.

Definition executePackageManagerRequest (request : PackageManagerRequest)
    (cwd : string) (args : list string) : M unit :=
  descriptor ← requestDescriptor request cwd args;
  resolveAndRun descriptor (binaryName request) args.

(** [Array.isArray(bin) ? bin : Object.keys(bin)]; the keys of [undefined]
    cannot be taken. *)
Definition binsOf (rangeDefinition : PackageManagerSpec)
    : result (list string) :=
  match spec_bin rangeDefinition with
  | Some (BinList names) => Ok names
  | Some (BinMap paths) => Ok (fst <$> paths)
  | None => Throw (TypeError "Cannot convert undefined or null to object")
  end.

(** The inner loop of [getPackageManagerFor]: whether the bins of one of
    the range definitions include the binary. *)
Fixpoint someRangeHasBin (binaryName : string)
    (rangeDefinitions : list PackageManagerSpec) : result bool :=
  match rangeDefinitions with
  | [] => Ok false
  | rangeDefinition :: rest =>
      match binsOf rangeDefinition with
      | Throw e => Throw e
      | Ok bins =>
          if bool_decide (binaryName ∈ bins) then Ok true
          else someRangeHasBin binaryName rest
      end
  end.

(** [getPackageManagerFor], over the supported package managers in the
    order of their set (types.ts is not among the sources: the set is an
    argument). A supported package manager with no definition makes the
    non-null assertion of [definitions[packageManager]!] fail on [.ranges]. *)
Fixpoint getPackageManagerFor (SupportedPackageManagerSet : list string)
    (binaryName : string) : result (option string) :=
  match SupportedPackageManagerSet with
  | [] => Ok None
  | packageManager :: rest =>
      match definitions (config E) !! packageManager with
      | None => Throw (TypeError "Cannot read properties of undefined")
      | Some definition =>
          match someRangeHasBin binaryName (def_ranges definition).*2 with
          | Throw e => Throw e
          | Ok true => Ok (Some packageManager)
          | Ok false => getPackageManagerFor rest binaryName
          end
      end
  end.

(** The bins of the range definitions, one list per range. *)
Fixpoint binsOfAll (rangeDefinitions : list PackageManagerSpec)
    : result (list (list string)) :=
  match rangeDefinitions with
  | [] => Ok []
  | rangeDefinition :: rest =>
      match binsOf rangeDefinition with
      | Throw e => Throw e
      | Ok bins =>
          match binsOfAll rest with
          | Throw e => Throw e
          | Ok others => Ok (bins :: others)
          end
      end
  end.

(** [getBinariesFor]: the set of the bin names, in the order in which they
    were added. *)
Definition getBinariesFor (name : string) : result (list string) :=
  match definitions (config E) !! name with
  | None => Throw (TypeError "Cannot read properties of undefined")
  | Some definition =>
      match binsOfAll (def_ranges definition).*2 with
      | Throw e => Throw e
      | Ok bins => Ok (uniq (concat bins))
      end
  end.

(** [getDefaultDescriptors], over the supported package managers in the
    order of their set: one [await] after the other. *)
Fixpoint getDefaultDescriptors (SupportedPackageManagerSet : list string)
    : M (list Descriptor) :=
  match SupportedPackageManagerSet with
  | [] => mret []
  | name :: rest =>
      range ← getDefaultVersion name;
      locators ← getDefaultDescriptors rest;
      mret ({| desc_name := name; desc_range := range |} :: locators)
  end.
End Methods.
End Engine.

(** ** A small semver, for the worked examples

    The theorems below hold for whatever the semver package computes: it
    enters the engine through [Env]. The worked examples need one concrete
    instance; this is a reading of the semver rules for strict versions
    ([v]-prefix, prerelease and build identifiers) and for ranges made of one
    comparator: [*], x-ranges, caret, tilde and the primitive operators. *)

Module MiniSemver.

Inductive ident :=
| Num (n : N)
| Alpha (s : string).

Record version := {
  major : N;
  minor : N;
  patch : N;
  prerelease : list ident;
}.

Inductive op := OpLt | OpLe | OpGt | OpGe | OpEq.

Abbreviation comparator := (op * version)%type.

(** *** Reading *)

Definition is_digit (c : ascii) : bool :=
  (48 <=? nat_of_ascii c)%nat && (nat_of_ascii c <=? 57)%nat.

Definition is_ident_char (c : ascii) : bool :=
  let n := nat_of_ascii c in
  is_digit c
  || ((65 <=? n)%nat && (n <=? 90)%nat)
  || ((97 <=? n)%nat && (n <=? 122)%nat)
  || (n =? 45)%nat.

Fixpoint all_chars (p : ascii → bool) (s : string) : bool :=
  match s with
  | EmptyString => true
  | String c rest => p c && all_chars p rest
  end.

Fixpoint digits_value (s : string) (acc : N) : N :=
  match s with
  | EmptyString => acc
  | String c rest =>
      digits_value rest (10 * acc + N.of_nat (nat_of_ascii c - 48))%N
  end.

(** A numeric identifier: digits, with no leading zero. *)
Definition parse_num (s : string) : option N :=
  match s with
  | EmptyString => None
  | String c rest =>
      if all_chars is_digit s
         && negb ((nat_of_ascii c =? 48)%nat
                  && negb (String.eqb rest EmptyString))
      then Some (digits_value s 0)
      else None
  end.

Definition parse_ident (s : string) : option ident :=
  match s with
  | EmptyString => None
  | _ =>
      if all_chars is_digit s then Num <$> parse_num s
      else if all_chars is_ident_char s then Some (Alpha s)
      else None
  end.

Fixpoint split_on (c : ascii) (s : string) : list string :=
  match s with
  | EmptyString => [EmptyString]
  | String a rest =>
      if Ascii.eqb a c then EmptyString :: split_on c rest
      else match split_on c rest with
           | h :: t => String a h :: t
           | [] => [String a EmptyString]
           end
  end.

Fixpoint split_first (c : ascii) (s : string) : string * option string :=
  match s with
  | EmptyString => (EmptyString, None)
  | String a rest =>
      if Ascii.eqb a c then (EmptyString, Some rest)
      else let '(h, t) := split_first c rest in (String a h, t)
  end.

Definition dot : ascii := ascii_of_nat 46.
Definition plus : ascii := ascii_of_nat 43.
Definition hyphen : ascii := ascii_of_nat 45.

Definition parse_idents (s : string) : option (list ident) :=
  mapM parse_ident (split_on dot s).

Definition build_ok (build : option string) : bool :=
  match build with
  | None => true
  | Some b =>
      forallb (λ i, negb (String.eqb i EmptyString)
                    && all_chars is_ident_char i) (split_on dot b)
  end.

Definition strip_v (s : string) : string :=
  match s with
  | String c rest => if (nat_of_ascii c =? 118)%nat then rest else s
  | EmptyString => s
  end.

(** [new SemVer(s)], without the build identifiers, which take no part in
    precedence. *)
Definition parse (s : string) : option version :=
  let '(core_pre, build) := split_first plus (strip_v s) in
  let '(core, pre) := split_first hyphen core_pre in
  if build_ok build then
    match split_on dot core with
    | [a; b; c] =>
        a ← parse_num a; b ← parse_num b; c ← parse_num c;
        pre ← match pre with
              | None => Some []
              | Some p => parse_idents p
              end;
        Some {| major := a; minor := b; patch := c; prerelease := pre |}
    | _ => None
    end
  else None.

(** *** Precedence *)

Definition compare_ident (a b : ident) : comparison :=
  match a, b with
  | Num x, Num y => (x ?= y)%N
  | Num _, Alpha _ => Lt
  | Alpha _, Num _ => Gt
  | Alpha x, Alpha y => String.compare x y
  end.

Fixpoint compare_idents (a b : list ident) : comparison :=
  match a, b with
  | [], [] => Eq
  | [], _ :: _ => Lt
  | _ :: _, [] => Gt
  | x :: a', y :: b' =>
      match compare_ident x y with
      | Eq => compare_idents a' b'
      | c => c
      end
  end.

Definition compare_pre (a b : list ident) : comparison :=
  match a, b with
  | [], [] => Eq
  | [], _ :: _ => Gt
  | _ :: _, [] => Lt
  | _, _ => compare_idents a b
  end.

Definition lex (c : comparison) (next : comparison) : comparison :=
  match c with
  | Eq => next
  | _ => c
  end.

Definition compare_version (a b : version) : comparison :=
  lex (major a ?= major b)%N
    (lex (minor a ?= minor b)%N
       (lex (patch a ?= patch b)%N
          (compare_pre (prerelease a) (prerelease b)))).

Definition sign (c : comparison) : Z :=
  match c with
  | Lt => (-1)%Z
  | Eq => 0%Z
  | Gt => 1%Z
  end.

(** [semver.rcompare(a, b)] is [compare(b, a)]. *)
Definition rcompare (a b : string) : Z :=
  match parse a, parse b with
  | Some va, Some vb => sign (compare_version vb va)
  | _, _ => 0%Z
  end.

(** *** Writing *)

Definition format_ident (i : ident) : string :=
  match i with
  | Num n => pretty n
  | Alpha s => s
  end.

Definition format (v : version) : string :=
  pretty (major v) +:+ "." +:+ pretty (minor v) +:+ "." +:+ pretty (patch v)
  +:+ match prerelease v with
      | [] => EmptyString
      | pre => "-" +:+ join "." (format_ident <$> pre)
      end.

(** [semver.valid] *)
Definition valid (s : string) : option string := format <$> parse s.

(** *** Ranges of one comparator *)

Definition release (a b c : N) : version :=
  {| major := a; minor := b; patch := c; prerelease := [] |}.

(** The exclusive upper bound [<a.b.c-0]. *)
Definition below (a b c : N) : comparator :=
  (OpLt, {| major := a; minor := b; patch := c; prerelease := [Num 0] |}).

Definition is_x (s : string) : bool :=
  String.eqb s "x" || String.eqb s "X" || String.eqb s "*".

(** An x-range or a partial version: [*], [1], [1.x], [1.2], [1.2.x]. *)
Definition parse_xrange (s : string) : option (list comparator) :=
  match split_on dot s with
  | [a] =>
      if is_x a || String.eqb a EmptyString then Some []
      else a ← parse_num a;
           Some [(OpGe, release a 0 0); below (a + 1) 0 0]
  | [a; b] | [a; b; _] =>
      if is_x a then Some []
      else
        a ← parse_num a;
        if is_x b then Some [(OpGe, release a 0 0); below (a + 1) 0 0]
        else b ← parse_num b;
             Some [(OpGe, release a b 0); below a (b + 1) 0]
  | _ => None
  end.

Definition caret (v : version) : list comparator :=
  [(OpGe, v);
   if negb (major v =? 0)%N then below (major v + 1) 0 0
   else if negb (minor v =? 0)%N then below 0 (minor v + 1) 0
   else below 0 0 (patch v + 1)].

Definition tilde (v : version) : list comparator :=
  [(OpGe, v); below (major v) (minor v + 1) 0].

Definition parse_range (s : string) : option (list comparator) :=
  match s with
  | String "^" rest => caret <$> parse rest
  | String "~" rest => tilde <$> parse rest
  | String ">" (String "=" rest) => (λ v, [(OpGe, v)]) <$> parse rest
  | String "<" (String "=" rest) => (λ v, [(OpLe, v)]) <$> parse rest
  | String ">" rest => (λ v, [(OpGt, v)]) <$> parse rest
  | String "<" rest => (λ v, [(OpLt, v)]) <$> parse rest
  | String "=" rest => (λ v, [(OpEq, v)]) <$> parse rest
  | _ =>
      match parse s with
      | Some v => Some [(OpEq, v)]
      | None => parse_xrange s
      end
  end.

Definition holds (v : version) (c : comparator) : bool :=
  match c.1, compare_version v c.2 with
  | OpLt, Lt | OpLe, Lt | OpLe, Eq | OpGt, Gt | OpGe, Gt | OpGe, Eq
  | OpEq, Eq => true
  | _, _ => false
  end.

Definition same_tuple (a b : version) : bool :=
  (major a =? major b)%N && (minor a =? minor b)%N && (patch a =? patch b)%N.

(** [range.test(version)]: a prerelease is only let in by a comparator
    on a prerelease of the same [major.minor.patch]. *)
Definition test (range : list comparator) (v : version) : bool :=
  forallb (holds v) range
  && match prerelease v with
     | [] => true
     | _ => existsb (λ c, negb (bool_decide (prerelease c.2 = []))
                         && same_tuple v c.2) range
     end.

Definition satisfies (version range : string) : bool :=
  match parse_range range, parse version with
  | Some r, Some v => test r v
  | _, _ => false
  end.

Definition format_op (o : op) : string :=
  match o with
  | OpLt => "<" | OpLe => "<=" | OpGt => ">" | OpGe => ">=" | OpEq => EmptyString
  end.

(** [semver.validRange] *)
Definition validRange (s : string) : option string :=
  r ← parse_range s;
  Some match r with
       | [] => "*"
       | _ => join " " ((λ c, format_op c.1 +:+ format c.2) <$> r)
       end.

Definition no_prerelease (v : version) : version :=
  release (major v) (minor v) (patch v).

(** Modelled from the spec: semverUtils.satisfiesWithPrereleases, the
    prerelease-inclusive matching of a version against a range. Its file is
    not among the sources; the prerelease identifiers of the version and of
    the comparators are dropped before the comparators are tested. *)
Definition satisfiesWithPrereleases (version : option string)
    (range : string) : bool :=
  match parse_range range, version ≫= parse with
  | Some r, Some v =>
      forallb (λ c, holds (no_prerelease v) (c.1, no_prerelease c.2)) r
  | _, _ => false
  end.

End MiniSemver.

(** ** A concrete environment, for the worked examples

    One tool line with two range keys on two registries, as in the
    specification's example, a second tool with a single key, an install
    cache and a project that vary from one example to the other. *)

Module Demo.

Definition legacy : RegistrySpec := NpmRegistry "yarn".
Definition berry : RegistrySpec := NpmRegistry "@yarnpkg/cli-dist".
Definition npmjs : RegistrySpec := NpmRegistry "npm".

Definition specA : PackageManagerSpec :=
  {| spec_url := "https://registry.yarnpkg.com/yarn/-/yarn-{}.tgz";
     spec_bin := Some (BinMap [("yarn", "./bin/yarn.js")]);
     spec_registry := legacy;
     spec_npmRegistry := None |}.

Definition specB : PackageManagerSpec :=
  {| spec_url := "https://repo.yarnpkg.com/{}/packages/yarnpkg-cli/bin/yarn.js";
     spec_bin := Some (BinList ["yarn"; "yarnpkg"]);
     spec_registry := berry;
     spec_npmRegistry := None |}.

Definition specNpm : PackageManagerSpec :=
  {| spec_url := "https://registry.npmjs.org/npm/-/npm-{}.tgz";
     spec_bin := Some (BinMap [("npm", "./bin/npm-cli.js")]);
     spec_registry := npmjs;
     spec_npmRegistry := None |}.

Definition yarn : PackageManagerDefinition :=
  {| def_default := "1.22.22";
     def_fetchLatestFrom := legacy;
     def_transparent :=
       {| transparent_default := Some "4.0.0";
          transparent_commands := [["yarn"; "dlx"]] |};
     def_ranges := [("1.x", specA); (">=2.0.0", specB)] |}.

Definition npm : PackageManagerDefinition :=
  {| def_default := "10.8.2";
     def_fetchLatestFrom := npmjs;
     def_transparent :=
       {| transparent_default := None;
          transparent_commands := [["npm"; "init"]; ["npx"]] |};
     def_ranges := [("*", specNpm)] |}.

Definition demoConfig : Config :=
  {| definitions := <["yarn" := yarn]> (<["npm" := npm]> ∅) |}.

(** *** The registries *)

Definition versionsOf (registry : RegistrySpec) : result (list string) :=
  match registry with
  | NpmRegistry "yarn" => Ok ["1.21.0"; "1.22.19"]
  | NpmRegistry "@yarnpkg/cli-dist" => Ok ["2.0.0"]
  | NpmRegistry "npm" => Ok ["9.9.3"; "10.8.2"; "10.8.2"]
  | _ => Throw (Error "Server answered with HTTP 404")
  end.

Definition tagsOf (registry : RegistrySpec) : result (gmap string string) :=
  match registry with
  | NpmRegistry "yarn" => Ok (<["latest" := "1.22.19"]> ∅)
  | NpmRegistry "@yarnpkg/cli-dist" =>
      Ok (<["latest" := "2.0.0"]> (<["canary" := "2.0.0"]> ∅))
  | NpmRegistry "npm" => Ok (<["latest" := "10.8.2"]> ∅)
  | _ => Throw (Error "Server answered with HTTP 404")
  end.

Definition latestOf (registry : RegistrySpec) : result string :=
  match registry with
  | NpmRegistry "yarn" => Ok "1.22.19"
  | NpmRegistry "npm" => Ok "10.8.2"
  | _ => Throw (Error "Server answered with HTTP 404")
  end.

(** *** corepackUtils *)

Definition is_url (s : string) : bool :=
  String.prefix "https://" s || String.prefix "http://" s.

(** Modelled from the spec: corepackUtils.isSupportedPackageManagerDescriptor
    is not among the sources; a custom tool is requested through a URL
    range. *)
Definition supportedDescriptor (d : Descriptor) : bool :=
  negb (is_url (desc_range d)).

(** Modelled from the spec: corepackUtils.isSupportedPackageManagerLocator
    is not among the sources; the reference of a custom tool is its URL. *)
Definition supportedLocator (l : Locator) : bool :=
  negb (is_url (tpl (loc_reference l))).

Definition supportedName (name : string) : bool :=
  bool_decide (name ∈ ["npm"; "pnpm"; "yarn"]).

(** Modelled from the spec: corepackUtils.findInstalledVersion is not among
    the sources; the install cache is asked for a previously installed
    version of the tool that satisfies the range, the highest one. *)
Definition installedVersion (installed : list (string * string))
    (d : Descriptor) : result (option string) :=
  match MiniSemver.parse_range (desc_range d) with
  | None => Throw (TypeError ("Invalid comparator: " +:+ desc_range d))
  | Some _ =>
      Ok (head (sort MiniSemver.rcompare
                  (snd <$> filter (λ nv, nv.1 = desc_name d ∧
                      MiniSemver.satisfies nv.2 (desc_range d) = true)
                    installed)))
  end.

Definition installInto (l : Locator) (spec : PackageManagerSpec)
    : result InstallSpec :=
  Ok {| install_location :=
          "/home/user/.cache/node/corepack/" +:+ loc_name l +:+ "/" +:+
          strip_hash (tpl (loc_reference l));
        install_bin := spec_bin spec;
        install_hash := "sha1.a1b2c3" |}.

(** *** The JSON and path built-ins, on the few values of the examples *)

Definition quoted (s : string) : string := dquote +:+ s +:+ dquote.

(** A value that is not an object, inside an object or an array. *)
Definition atom (value : json) : string :=
  match value with
  | JString s => quoted s
  | JNumber n => pretty n
  | JBool true => "true"
  | JBool false => "false"
  | _ => "null"
  end.

(** [JSON.stringify(value, null, 2)], on the values that a store is
    serialised as: an object or an array of strings and nulls. *)
Definition stringifyJSON (value : json) : string :=
  match value with
  | JObject props =>
      match map_to_list props with
      | [] => "{}"
      | entries =>
          "{" +:+ newline +:+
          join ("," +:+ newline)
            ((λ kv, "  " +:+ quoted kv.1 +:+ ": " +:+ atom kv.2) <$> entries)
          +:+ newline +:+ "}"
      end
  | JArray [] => "[]"
  | JArray items =>
      "[" +:+ newline +:+
      join ("," +:+ newline) ((λ item, "  " +:+ atom item) <$> items)
      +:+ newline +:+ "]"
  | _ => atom value
  end.

Definition stringify (store : Store) : string :=
  stringifyJSON (json_of_store store).

Definition knownStores : list Store :=
  [∅; <["yarn" := "1.22.19"]> ∅; <["yarn" := EmptyString]> ∅;
   <["npm" := "10.8.2"]> (<["yarn" := "1.22.19"]> ∅)].

Definition mixed : gmap string json :=
  <["yarn" := JString "1.22.19"]>
    (<["npm" := JNumber 10]> (<["pnpm" := JNull]> ∅)).

Definition mixedContent : string :=
  "{" +:+ quoted "yarn" +:+ ": " +:+ quoted "1.22.19" +:+ ", " +:+
  quoted "npm" +:+ ": 10, " +:+ quoted "pnpm" +:+ ": null}".

(** An array of a version and a number, and the text of a file that holds
    it. *)
Definition listed : list json := [JString "1.22.19"; JNumber 10].

Definition listedContent : string := "[" +:+ quoted "1.22.19" +:+ ", 10]".

Definition knownContents : list (string * json) :=
  ((λ value, (stringifyJSON value +:+ newline, value))
     <$> ((json_of_store <$> knownStores)
          ++ [JArray []; JArray [JString "1.22.19"; JNull]]))
  ++ [("null", JNull); ("42", JNumber 42); ("true", JBool true);
      (quoted "1.22.19", JString "1.22.19");
      (mixedContent, JObject mixed);
      ("[]", JArray []);
      (listedContent, JArray listed)].

Definition parseJSON (raw : string) : result json :=
  match find (λ kv, bool_decide (kv.1 = raw)) knownContents with
  | Some kv => Ok kv.2
  | None => Throw (SyntaxError "Unexpected token in JSON")
  end.

Definition slash : ascii := ascii_of_nat 47.

Definition dirname (path : string) : string :=
  join "/" (removelast (MiniSemver.split_on slash path)).

(** *** The environment *)

Definition env (vars : list (string * string))
    (installed : list (string * string))
    (project : result LoadSpecResult)
    (write : result unit) (pin : result unit) : Env :=
  {| config := demoConfig;
     process_env := λ var, (list_to_map vars : gmap string string) !! var;
     JSON_parse := parseJSON;
     JSON_stringify := stringifyJSON;
     fs_mkdir := Ok tt;
     fs_writeFile := λ _, write;
     path_dirname := dirname;
     semverValid := MiniSemver.valid;
     semverValidRange := MiniSemver.validRange;
     semverRcompare := MiniSemver.rcompare;
     satisfiesWithPrereleases := MiniSemver.satisfiesWithPrereleases;
     isSupportedPackageManager := supportedName;
     isSupportedPackageManagerDescriptor := supportedDescriptor;
     isSupportedPackageManagerLocator := supportedLocator;
     getRegistryFromPackageManagerSpec := spec_registry;
     fetchAvailableTags := tagsOf;
     fetchAvailableVersions := versionsOf;
     fetchLatestStableVersion := latestOf;
     findInstalledVersion := installedVersion installed;
     installVersion := installInto;
     runVersion := λ _ _ _ _, Ok tt;
     loadSpec := λ _, project;
     setLocalPackageManager := λ _ _, pin |}.

Definition project : string := "/home/user/project/package.json".

(** No variable set, nothing installed, no project. *)
Definition plain : Env := env [] [] (Ok (NoProject project)) (Ok tt) (Ok tt).

Definition absent : World :=
  {| lkg_file := Throw (NodeError "ENOENT"); trace := [] |}.

Definition holding (raw : string) : World :=
  {| lkg_file := Ok raw; trace := [] |}.

(** The file as [createLastKnownGoodFile] writes it for a store. *)
Definition written (store : Store) : World :=
  holding (stringify store +:+ newline).

(** COREPACK_DEFAULT_TO_LATEST=0. *)
Definition staticDefault : Env :=
  env [("COREPACK_DEFAULT_TO_LATEST", "0")] [] (Ok (NoProject project))
      (Ok tt) (Ok tt).

(** The Last-Known-Good file cannot be written. *)
Definition readOnlyHome : Env :=
  env [] [] (Ok (NoProject project)) (Throw (NodeError "EACCES")) (Ok tt).

(** A project with no packageManager field; [pin] is what writing the
    field answers. *)
Definition unpinned (pin : result unit) : Env :=
  env [] [] (Ok (NoSpec project)) (Ok tt) pin.

Definition yarnClassic : Locator :=
  {| loc_name := "yarn"; loc_reference := Some "1.22.19" |}.

(** A project whose packageManager field is [spec]. *)
Definition pinned (spec : Descriptor) : Env :=
  env [] [] (Ok (Found project spec)) (Ok tt) (Ok tt).

Definition pnpm8 : Descriptor :=
  {| desc_name := "pnpm"; desc_range := "8.6.0" |}.

Definition yarn4 : Descriptor :=
  {| desc_name := "yarn"; desc_range := "4.0.0" |}.



(** yarn 1.22.19 is in the install cache. *)
Definition cached : Env :=
  env [] [("yarn", "1.22.19")] (Ok (NoProject project)) (Ok tt) (Ok tt).

Definition yarnExact : Descriptor :=
  {| desc_name := "yarn"; desc_range := "1.22.19" |}.

(** An exact version with the hash of its archive, as a project pins it. *)
Definition yarnHashed : Descriptor :=
  {| desc_name := "yarn"; desc_range := "1.22.19+sha1.abc" |}.

Definition yarnLatest : Descriptor :=
  {| desc_name := "yarn"; desc_range := "latest" |}.

Definition yarnNightly : Descriptor :=
  {| desc_name := "yarn"; desc_range := "nightly" |}.

Definition yarnCaret : Descriptor :=
  {| desc_name := "yarn"; desc_range := "^1.0.0" |}.



(** An environment with another configuration. *)
Definition withConfig (c : Config) (E : Env) : Env :=
  {| config := c;
     process_env := process_env E;
     JSON_parse := JSON_parse E;
     JSON_stringify := JSON_stringify E;
     fs_mkdir := fs_mkdir E;
     fs_writeFile := fs_writeFile E;
     path_dirname := path_dirname E;
     semverValid := semverValid E;
     semverValidRange := semverValidRange E;
     semverRcompare := semverRcompare E;
     satisfiesWithPrereleases := satisfiesWithPrereleases E;
     isSupportedPackageManager := isSupportedPackageManager E;
     isSupportedPackageManagerDescriptor :=
       isSupportedPackageManagerDescriptor E;
     isSupportedPackageManagerLocator := isSupportedPackageManagerLocator E;
     getRegistryFromPackageManagerSpec := getRegistryFromPackageManagerSpec E;
     fetchAvailableTags := fetchAvailableTags E;
     fetchAvailableVersions := fetchAvailableVersions E;
     fetchLatestStableVersion := fetchLatestStableVersion E;
     findInstalledVersion := findInstalledVersion E;
     installVersion := installVersion E;
     runVersion := runVersion E;
     loadSpec := loadSpec E;
     setLocalPackageManager := setLocalPackageManager E |}.

(** The second range of yarn is on a registry that does not answer. *)
Definition specGone : PackageManagerSpec :=
  {| spec_url := "https://registry.example.com/yarn/-/yarn-{}.tgz";
     spec_bin := Some (BinList ["yarn"]);
     spec_registry := NpmRegistry "gone";
     spec_npmRegistry := None |}.

Definition yarnHalf : PackageManagerDefinition :=
  {| def_default := "1.22.22";
     def_fetchLatestFrom := legacy;
     def_transparent :=
       {| transparent_default := None; transparent_commands := [] |};
     def_ranges := [("1.x", specA); (">=2.0.0", specGone)] |}.

Definition halfDown : Env :=
  withConfig {| definitions := <["yarn" := yarnHalf]> ∅ |} plain.

End Demo.

(** The number of writes of the Last-Known-Good file in a trace. *)
Definition writes (t : list event) : nat :=
  length (filter (λ e, is_write e = true) t).

(** The calls to a registry in a trace. *)
Definition network_calls (t : list event) : list event :=
  filter (λ e, is_network e = true) t.

(** The specs of the declared range keys, in the order of the keys. *)
Definition declared_specs (definition : PackageManagerDefinition)
    : list PackageManagerSpec :=
  omap (λ key, Engine.ranges_get definition (Some key))
       (Engine.range_keys definition).

(** A comparator that orders the elements of [l]: any two of them are
    comparable, and the comparison is transitive. *)
Definition total_on {A} (cmp : A → A → Z) (l : list A) : Prop :=
  ∀ a b, a ∈ l → b ∈ l → (cmp a b <= 0)%Z ∨ (cmp b a <= 0)%Z.

Definition transitive_on {A} (cmp : A → A → Z) (l : list A) : Prop :=
  ∀ a b c, a ∈ l → b ∈ l → c ∈ l →
           (cmp a b <= 0)%Z → (cmp b c <= 0)%Z → (cmp a c <= 0)%Z.

(** The world after further calls. *)
Definition logs (es : list event) (w : World) : World :=
  {| lkg_file := lkg_file w; trace := trace w ++ es |}.

(** The events on the Last-Known-Good file and its folder. *)
Definition touches_store (e : event) : bool :=
  match e with
  | ReadLastKnownGood | MkdirHome | WriteLastKnownGood _ => true
  | _ => false
  end.

(** A computation in which the engine makes no call of its own on the
    Last-Known-Good file: whatever the collaborators answer, the trace grows
    by their events only, none of them a read or a write of the file or the
    creation of its folder. *)
Definition store_free {A} (m : M A) : Prop :=
  ∀ w, ∃ es, trace (m w).2 = trace w ++ es ∧
             Forall (λ e, touches_store e = false) es.

(** The elements of an Array that [getLastKnownGood] returned, as
    [JSON.stringify] writes them: those that are strings, and [null] for the
    others, which were deleted. *)
Definition strings_or_null (items : list json) : list json :=
  (λ item, from_option JString JNull (json_string item)) <$> items.

(** A string of one line: it holds no line terminator. *)
Fixpoint single_line (s : string) : bool :=
  match s with
  | EmptyString => true
  | String c rest => negb (starts_line_terminator s) && single_line rest
  end.

(** * Properties *)

(** ** Running a computation *)

Ltac run :=
  unfold mbind, M_bind, mret, M_ret, fmap, M_fmap, try_catch, call, lift, throw.

(** The cases of a membership in an explicit list. *)
Ltac each_member H :=
  repeat (apply elem_of_cons in H as [-> | H]);
  [.. | by apply elem_of_nil in H].

Lemma bind_ok {A B} (m : M A) (k : A → M B) w a w' :
  m w = (Ok a, w') → (m ≫= k) w = k a w'.
Proof. intros H. run. by rewrite H. Qed.

Lemma bind_throw {A B} (m : M A) (k : A → M B) w e w' :
  m w = (Throw e, w') → (m ≫= k) w = (Throw e, w').
Proof. intros H. run. by rewrite H. Qed.

Lemma if_truthy_yes {A} (s : string) (yes : string → A) (no : A) :
  s ≠ EmptyString → if_truthy (Some s) yes no = yes s.
Proof.
  intros Hs. unfold if_truthy.
  destruct (String.eqb_spec s EmptyString); [done | reflexivity].
Qed.

Lemma if_truthy_no {A} (x : option string) (yes : string → A) (no : A) :
  x = None ∨ x = Some EmptyString → if_truthy x yes no = no.
Proof. by intros [-> | ->]. Qed.

(** ** Loading the store *)

Lemma getLastKnownGood_run (E : Env) (w : World) :
  getLastKnownGood E w =
    (match lkg_file w with
     | Ok raw => Ok (storeOfContent E raw)
     | Throw e =>
         if bool_decide (exn_code e = Some "ENOENT") then Ok ∅ else Throw e
     end, log ReadLastKnownGood w).
Proof.
  unfold getLastKnownGood, readLastKnownGoodFile. run.
  destruct (lkg_file w) as [raw | e]; [done |].
  by case_bool_decide.
Qed.

Lemma store_lookup_empty (name : string) : (∅ : Store) !! name = None.
Proof. apply (lookup_empty (M := gmap string)). Qed.

Lemma storeOfParsed_lookup (parsed : json) (name : string) :
  json_truthy parsed = true → json_typeof parsed = "object" →
  storeOfParsed parsed !! name = json_entries parsed !! name ≫= json_string.
Proof.
  intros Ht Ho. unfold storeOfParsed. rewrite Ht, Ho. simpl.
  apply lookup_omap.
Qed.

Lemma storeOfParsed_length (parsed : json) :
  json_truthy parsed = true → json_typeof parsed = "object" →
  store_length (storeOfParsed parsed) = json_length parsed.
Proof. intros Ht Ho. unfold storeOfParsed. by rewrite Ht, Ho. Qed.

Lemma storeOfParsed_empty (parsed : json) :
  json_truthy parsed = false ∨ json_typeof parsed ≠ "object" →
  storeOfParsed parsed = ∅.
Proof.
  intros [Hf | Hn]; unfold storeOfParsed.
  - by rewrite Hf.
  - destruct (json_truthy parsed); [| done]. simpl.
    destruct (String.eqb_spec (json_typeof parsed) "object"); done.
Qed.

(** The load, case by case. A missing file is an empty store; any other
    read error is thrown again; a file that was read never makes the load
    raise: content that does not parse, and content that parses to a falsy
    value or to a value whose [typeof] is not [object], is an empty store;
    any other parsed value, a plain object or an Array, is the store, with
    exactly its entries whose value is a string. *)
Lemma getLastKnownGood_cases (E : Env) (w : World) :
  let w' := log ReadLastKnownGood w in
  (∀ e, lkg_file w = Throw e → exn_code e = Some "ENOENT" →
        getLastKnownGood E w = (Ok ∅, w')) ∧
  (∀ e, lkg_file w = Throw e → exn_code e ≠ Some "ENOENT" →
        getLastKnownGood E w = (Throw e, w')) ∧
  (∀ raw, lkg_file w = Ok raw →
     ∃ store : Store, getLastKnownGood E w = (Ok store, w') ∧
       (∀ e, JSON_parse E raw = Throw e → store = ∅) ∧
       (∀ parsed, JSON_parse E raw = Ok parsed →
          json_truthy parsed = false ∨ json_typeof parsed ≠ "object" →
          store = ∅) ∧
       (∀ parsed, JSON_parse E raw = Ok parsed →
          json_truthy parsed = true → json_typeof parsed = "object" →
          store_length store = json_length parsed ∧
          ∀ name, store !! name =
                  json_entries parsed !! name ≫= json_string)).
Proof.
  intros w'. subst w'. rewrite getLastKnownGood_run. repeat split.
  - intros e -> Hc. by rewrite bool_decide_eq_true_2.
  - intros e -> Hc. by rewrite bool_decide_eq_false_2.
  - intros raw ->. exists (storeOfContent E raw). split; [done |].
    unfold storeOfContent. split; [| split].
    + by intros e ->.
    + intros parsed -> H. by apply storeOfParsed_empty.
    + intros parsed -> Ht Ho. split.
      * by apply storeOfParsed_length.
      * intros name. by apply storeOfParsed_lookup.
Qed.

(** On the examples: no file; a file that cannot be read; a file that is
    not JSON; a number; an object with a string, a number and a null. *)
Lemma getLastKnownGood_cases_examples :
  getLastKnownGood Demo.plain Demo.absent
    = (Ok ∅, log ReadLastKnownGood Demo.absent) ∧
  (let w := {| lkg_file := Throw (NodeError "EACCES"); trace := [] |} in
   getLastKnownGood Demo.plain w
     = (Throw (NodeError "EACCES"), log ReadLastKnownGood w)) ∧
  getLastKnownGood Demo.plain (Demo.holding "{ yarn: ")
    = (Ok ∅, log ReadLastKnownGood (Demo.holding "{ yarn: ")) ∧
  getLastKnownGood Demo.plain (Demo.holding "42")
    = (Ok ∅, log ReadLastKnownGood (Demo.holding "42")) ∧
  (∃ store : Store,
     getLastKnownGood Demo.plain (Demo.holding Demo.mixedContent)
       = (Ok store, log ReadLastKnownGood (Demo.holding Demo.mixedContent)) ∧
     store_length store = None ∧
     store !! "yarn" = Some "1.22.19" ∧ store !! "npm" = None ∧
     store !! "pnpm" = None).
Proof.
  split; [| split; [| split; [| split]]]; try (vm_compute; reflexivity).
  eexists. split; [vm_compute; reflexivity |].
  repeat split; vm_compute; reflexivity.
Qed.

(** The entries of a parsed Array are its elements, under their indices. *)
Lemma array_entries_lookup (items : list json) (k i : nat) :
  (list_to_map (imap (λ j x, (pretty (k + j)%nat, x)) items)
     : gmap string json) !! pretty (k + i)%nat = items !! i.
Proof.
  revert k i. induction items as [| x rest IH]; intros k i.
  - rewrite lookup_nil. apply (lookup_empty (M := gmap string)).
  - rewrite imap_cons, list_to_map_cons. simpl. destruct i as [| j].
    + by rewrite lookup_insert_eq.
    + rewrite lookup_insert_ne
        by (intros Heq; apply (inj pretty) in Heq; lia).
      rewrite (imap_ext _ (λ j x, (pretty (S k + j)%nat, x)))
        by (intros; simpl; do 2 f_equal; lia).
      replace (k + S j)%nat with (S k + j)%nat by lia. apply IH.
Qed.

Lemma array_entries_none (items : list json) (k : nat) (name : string) :
  (∀ i, i < length items → name ≠ pretty (k + i)%nat) →
  (list_to_map (imap (λ j x, (pretty (k + j)%nat, x)) items)
     : gmap string json) !! name = None.
Proof.
  revert k. induction items as [| x rest IH]; intros k Hname.
  - apply (lookup_empty (M := gmap string)).
  - rewrite imap_cons, list_to_map_cons. simpl.
    rewrite lookup_insert_ne
      by (intros Heq; apply (Hname 0); [simpl; lia | done]).
    rewrite (imap_ext _ (λ j x, (pretty (S k + j)%nat, x)))
      by (intros; simpl; do 2 f_equal; lia).
    apply IH. intros i Hi.
    replace (S k + i)%nat with (k + S i)%nat by lia.
    apply Hname. simpl. lia.
Qed.

Lemma json_entries_index (items : list json) (i : nat) :
  json_entries (JArray items) !! pretty i = items !! i.
Proof. exact (array_entries_lookup items 0 i). Qed.

Lemma json_entries_no_index (items : list json) (name : string) :
  json_entries (JArray items) !! name = None ↔
  ∀ i, i < length items → name ≠ pretty i.
Proof.
  split.
  - intros Hnone i Hi ->. rewrite json_entries_index in Hnone.
    apply lookup_ge_None_1 in Hnone. lia.
  - intros Hname. exact (array_entries_none items 0 name Hname).
Qed.

(** C9. A file that holds a JSON array is not loaded as an empty store. What
    [JSON.parse] gives for it is an Array, which is truthy and whose [typeof]
    is [object]: the tests of lines 45 and 46 let it through, and
    [getLastKnownGood] returns the Array itself, with its length, its
    elements that are strings being its entries, under their indices. *)
Theorem getLastKnownGood_keeps_array (E : Env) (w : World) (raw : string)
    (items : list json) :
  lkg_file w = Ok raw →
  JSON_parse E raw = Ok (JArray items) →
  ∃ store : Store,
    getLastKnownGood E w = (Ok store, log ReadLastKnownGood w) ∧
    store ≠ ∅ ∧
    store_length store = Some (length items) ∧
    (∀ (i : nat) item, items !! i = Some item →
       store !! pretty i = json_string item) ∧
    (∀ name, (∀ i : nat, i < length items → name ≠ pretty i) →
       store !! name = None).
Proof.
  intros Hfile Hparse. exists (storeOfParsed (JArray items)).
  split; [| split; [| split; [| split]]].
  - rewrite getLastKnownGood_run, Hfile. unfold storeOfContent.
    by rewrite Hparse.
  - intros Heq. apply (f_equal store_length) in Heq. discriminate Heq.
  - reflexivity.
  - intros i item Hitem. rewrite storeOfParsed_lookup by done.
    by rewrite json_entries_index, Hitem.
  - intros name Hname. rewrite storeOfParsed_lookup by done.
    by rewrite (proj2 (json_entries_no_index items name) Hname).
Qed.

(** On the example: the file holds ["1.22.19", 10]. The store that is loaded
    has length 2 and the entry 1.22.19 under the name 0. *)
Lemma getLastKnownGood_keeps_array_witness :
  ∃ store : Store,
    getLastKnownGood Demo.plain (Demo.holding Demo.listedContent)
      = (Ok store, log ReadLastKnownGood (Demo.holding Demo.listedContent)) ∧
    store ≠ ∅ ∧
    store_length store = Some 2 ∧
    store !! "0" = Some "1.22.19" ∧ store !! "1" = None.
Proof.
  destruct (getLastKnownGood_keeps_array Demo.plain
              (Demo.holding Demo.listedContent) Demo.listedContent Demo.listed
              eq_refl ltac:(vm_compute; reflexivity))
    as (store & Hrun & Hne & Hlen & Hitems & _).
  exists store. split; [exact Hrun |]. split; [exact Hne |].
  split; [exact Hlen |]. split.
  - exact (Hitems 0 (JString "1.22.19") eq_refl).
  - exact (Hitems 1 (JNumber 10) eq_refl).
Defined.

(** ** Activation *)

Lemma store_set_lookup (lkg : Store) (name : string) (reference : option string) :
  store_set lkg name reference !! name = reference.
Proof.
  change (store_props (store_set lkg name reference) !! name = reference).
  destruct reference; simpl; [apply lookup_insert_eq | apply lookup_delete_eq].
Qed.

Lemma store_set_other (lkg : Store) (name other : string)
    (reference : option string) :
  other ≠ name → store_set lkg name reference !! other = lkg !! other.
Proof.
  intros Hne.
  change (store_props (store_set lkg name reference) !! other
          = store_props lkg !! other).
  destruct reference; simpl;
    [by apply lookup_insert_ne | by apply lookup_delete_ne].
Qed.

Lemma store_set_plain (lkg : Store) (name : string) (reference : option string) :
  store_length lkg = None → store_length (store_set lkg name reference) = None.
Proof. intros H. simpl. by rewrite H. Qed.

Lemma activate_already (E : Env) (lkg : Store) (locator : Locator) :
  lkg !! loc_name locator = loc_reference locator →
  activatePackageManager E lkg locator = (lkg, mret tt).
Proof. intros H. unfold activatePackageManager. by rewrite bool_decide_eq_true_2. Qed.

Lemma activate_fresh (E : Env) (lkg : Store) (locator : Locator) :
  lkg !! loc_name locator ≠ loc_reference locator →
  activatePackageManager E lkg locator =
    (store_set lkg (loc_name locator) (loc_reference locator),
     createLastKnownGoodFile E
       (store_set lkg (loc_name locator) (loc_reference locator))).
Proof. intros H. unfold activatePackageManager. by rewrite bool_decide_eq_false_2. Qed.

Lemma createLastKnownGoodFile_ok (E : Env) (lkg : Store) (w : World) :
  let content := JSON_stringify E (json_of_store lkg) +:+ newline in
  fs_mkdir E = Ok tt → fs_writeFile E content = Ok tt →
  createLastKnownGoodFile E lkg w =
    (Ok tt, {| lkg_file := Ok content;
               trace := trace w ++ [MkdirHome; WriteLastKnownGood content] |}).
Proof.
  intros content Hm Hw. unfold createLastKnownGoodFile, writeLastKnownGoodFile.
  run. fold content. rewrite Hm, Hw. simpl. by rewrite <- app_assoc.
Qed.

Lemma writes_app (t u : list event) : writes (t ++ u) = writes t + writes u.
Proof. unfold writes. by rewrite filter_app, length_app. Qed.

(** A plain object is read back from the file as it was written, when
    [JSON.parse] gives back the value that [JSON.stringify] was given. *)
Lemma storeOfContent_plain (E : Env) (store : Store) :
  let content := JSON_stringify E (json_of_store store) +:+ newline in
  store_length store = None →
  JSON_parse E content = Ok (json_of_store store) →
  storeOfContent E content = store.
Proof.
  intros content Hplain Hback. unfold storeOfContent. rewrite Hback.
  destruct store as [len props]. simpl in Hplain. subst len.
  unfold storeOfParsed, json_of_store. simpl. f_equal.
  apply map_eq. intros name. rewrite lookup_omap, lookup_fmap.
  by destruct (props !! name).
Qed.

(** Activation step by step: of the store that is passed, and through the
    engine, which loads the store from the file first. When the store
    already holds the locator's reference under its name, nothing is written
    and the store and the world stay as they are; otherwise the entry is set
    (the other entries keep their value) and, the home folder and the file
    being writable, the store is written to the file, once. The object that
    was passed then holds the reference, and a second activation with it
    changes nothing. Through the engine, when the file gives the entry back,
    two activations in a row write the file exactly once. *)
Lemma activatePackageManager_steps (E : Env) (lastKnownGood : Store)
    (locator : Locator) (w : World) :
  let name := loc_name locator in
  let reference := loc_reference locator in
  let once := activatePackageManager E lastKnownGood locator in
  let twice := activatePackageManager E once.1 locator in
  let content := JSON_stringify E (json_of_store once.1) +:+ newline in
  (lastKnownGood !! name = reference →
     once.1 = lastKnownGood ∧ once.2 w = (Ok tt, w)) ∧
  (lastKnownGood !! name ≠ reference →
     (∀ other, other ≠ name → once.1 !! other = lastKnownGood !! other) ∧
     (fs_mkdir E = Ok tt → fs_writeFile E content = Ok tt →
      once.2 w =
        (Ok tt, {| lkg_file := Ok content;
                   trace := trace w ++ [MkdirHome; WriteLastKnownGood content] |}))) ∧
  (once.1 !! name = reference ∧ twice.1 = once.1 ∧
   ∀ w', twice.2 w' = (Ok tt, w')) ∧
  (∀ w0, getLastKnownGood E w = (Ok lastKnownGood, w0) →
     (lastKnownGood !! name = reference →
        Engine.activatePackageManager E locator w = (Ok tt, w0)) ∧
     (lastKnownGood !! name ≠ reference →
      fs_mkdir E = Ok tt → fs_writeFile E content = Ok tt →
      let w1 := {| lkg_file := Ok content;
                   trace := trace w0 ++ [MkdirHome; WriteLastKnownGood content] |} in
      Engine.activatePackageManager E locator w = (Ok tt, w1) ∧
      (storeOfContent E content !! name = reference →
       Engine.activatePackageManager E locator w1
         = (Ok tt, log ReadLastKnownGood w1) ∧
       writes (trace (log ReadLastKnownGood w1)) = S (writes (trace w))))).
Proof.
  intros name reference once twice content.
  assert (Hheld : once.1 !! name = reference).
  { subst once. destruct (decide (lastKnownGood !! name = reference)) as [H | H].
    - by rewrite activate_already.
    - rewrite activate_fresh by done. apply store_set_lookup. }
  split; [| split; [| split]].
  - intros H. subst once. rewrite activate_already by done. done.
  - intros H. subst content once. rewrite activate_fresh by done. simpl. split.
    + intros other Hne. by apply store_set_other.
    + intros Hm Hw. by apply createLastKnownGoodFile_ok.
  - split; [done |]. subst twice. rewrite activate_already by done. done.
  - intros w0 Hload. split.
    + intros H. unfold Engine.activatePackageManager.
      rewrite (bind_ok _ _ _ _ _ Hload). by rewrite activate_already.
    + intros H Hm Hw w1.
      assert (Hfirst : Engine.activatePackageManager E locator w = (Ok tt, w1)).
      { unfold Engine.activatePackageManager.
        rewrite (bind_ok _ _ _ _ _ Hload). subst w1 content once.
        rewrite activate_fresh by done. simpl.
        rewrite activate_fresh in Hw by done.
        by apply createLastKnownGoodFile_ok. }
      split; [done |]. intros Hback. split.
      * unfold Engine.activatePackageManager.
        rewrite (bind_ok _ _ w1 (storeOfContent E content)
                   (log ReadLastKnownGood w1))
          by (by rewrite getLastKnownGood_run).
        by rewrite activate_already.
      * rewrite getLastKnownGood_run in Hload.
        assert (w0 = log ReadLastKnownGood w) as -> by congruence.
        subst w1. simpl. rewrite !writes_app. simpl.
        unfold writes at 2 3 4. simpl. lia.
Qed.

(** On a store that is a plain object, so whenever the file is missing or
    holds a JSON object, two activations in a row of the same locator (its
    reference a string, its name any but [__proto__], which cannot be set
    this way) write the file exactly once, [JSON.parse] giving back the value
    that [JSON.stringify] was given: the second one finds the entry. *)
Lemma activatePackageManager_plain_twice (E : Env) (lastKnownGood : Store)
    (locator : Locator) (w w0 : World) :
  let name := loc_name locator in
  let reference := loc_reference locator in
  let value := json_of_store (store_set lastKnownGood name reference) in
  let content := JSON_stringify E value +:+ newline in
  let w1 := {| lkg_file := Ok content;
               trace := trace w0 ++ [MkdirHome; WriteLastKnownGood content] |} in
  getLastKnownGood E w = (Ok lastKnownGood, w0) →
  store_length lastKnownGood = None →
  is_Some reference → name ≠ "__proto__" →
  lastKnownGood !! name ≠ reference →
  fs_mkdir E = Ok tt → fs_writeFile E content = Ok tt →
  JSON_parse E content = Ok value →
  Engine.activatePackageManager E locator w = (Ok tt, w1) ∧
  Engine.activatePackageManager E locator w1
    = (Ok tt, log ReadLastKnownGood w1) ∧
  writes (trace (log ReadLastKnownGood w1)) = S (writes (trace w)) ∧
  storeOfContent E content !! name = reference.
Proof.
  intros name reference value content w1 Hload Hplain _ _ Hout Hm Hw Hback.
  assert (Hread : storeOfContent E content !! name = reference).
  { subst content value.
    rewrite storeOfContent_plain by (by try apply store_set_plain).
    apply store_set_lookup. }
  destruct (activatePackageManager_steps E lastKnownGood locator w)
    as (_ & _ & _ & H).
  destruct (H w0 Hload) as [_ Hfresh]. clear H.
  rewrite activate_fresh in Hfresh by done. simpl in Hfresh.
  destruct (Hfresh Hout Hm Hw) as [Hfirst Hsecond].
  destruct (Hsecond Hread) as [Hagain Hcount].
  done.
Qed.

Lemma strings_or_null_again (items : list json) :
  strings_or_null (strings_or_null items) = strings_or_null items.
Proof.
  unfold strings_or_null. rewrite <- list_fmap_compose.
  apply list_fmap_ext. intros _ item _. by destruct item.
Qed.

Lemma length_strings_or_null (items : list json) :
  length (strings_or_null items) = length items.
Proof. apply length_fmap. Qed.

(** What is serialised of an Array whose properties under the indices are
    the elements that are strings. *)
Lemma json_of_array_store (items : list json) (props : gmap string string) :
  (∀ i item, items !! i = Some item →
             props !! pretty i = json_string item) →
  json_of_store {| store_length := Some (length items); store_props := props |}
    = JArray (strings_or_null items).
Proof.
  intros Hprops. unfold json_of_store, strings_or_null. simpl. f_equal.
  apply list_eq. intros i. rewrite !list_lookup_fmap.
  destruct (items !! i) as [item |] eqn:Hitem; simpl.
  - rewrite lookup_seq_lt by by eapply lookup_lt_Some. simpl.
    by rewrite (Hprops i item).
  - rewrite lookup_seq_ge by by apply lookup_ge_None_1. done.
Qed.

(** Activation when the file holds a JSON array, for a name that is not an
    index. The store that is loaded is the Array: the entry is set on it as a
    property of that name, which [JSON.stringify] leaves out, and the file is
    written with the elements alone. *)
Lemma activate_array (E : Env) (w : World) (raw name reference : string)
    (items : list json) :
  let content := JSON_stringify E (JArray (strings_or_null items)) +:+ newline in
  lkg_file w = Ok raw →
  JSON_parse E raw = Ok (JArray items) →
  array_index name = None →
  json_entries (JArray items) !! name = None →
  fs_mkdir E = Ok tt → fs_writeFile E content = Ok tt →
  Engine.activatePackageManager E
    {| loc_name := name; loc_reference := Some reference |} w
  = (Ok tt,
     {| lkg_file := Ok content;
        trace := trace w ++ [ReadLastKnownGood; MkdirHome;
                             WriteLastKnownGood content] |}).
Proof.
  intros content Hfile Hparse Hname Hentry Hm Hw.
  unfold Engine.activatePackageManager.
  rewrite (bind_ok _ _ w (storeOfParsed (JArray items))
             (log ReadLastKnownGood w)).
  2: { rewrite getLastKnownGood_run, Hfile. unfold storeOfContent.
       by rewrite Hparse. }
  assert (Hout : storeOfParsed (JArray items) !! name ≠ Some reference).
  { rewrite storeOfParsed_lookup by done. by rewrite Hentry. }
  rewrite activate_fresh by done. cbn [snd loc_name loc_reference].
  assert (Hvalue : json_of_store
            (store_set (storeOfParsed (JArray items)) name (Some reference))
          = JArray (strings_or_null items)).
  { change (storeOfParsed (JArray items))
      with {| store_length := Some (length items);
              store_props := omap json_string (json_entries (JArray items)) |}.
    unfold store_set. cbn [store_length store_props]. rewrite Hname.
    apply json_of_array_store. intros i item Hitem.
    rewrite lookup_insert_ne.
    - by rewrite lookup_omap, json_entries_index, Hitem.
    - intros ->. rewrite json_entries_index in Hentry. congruence. }
  unfold createLastKnownGoodFile, writeLastKnownGoodFile. rewrite Hvalue.
  fold content. run. rewrite Hm, Hw. simpl. by rewrite <- !app_assoc.
Qed.

(** C8. Activation is not idempotent on a file that holds a JSON array,
    [[]] for one. With the home folder and the file writable, and
    [JSON.parse] reading back the array that [JSON.stringify] wrote:
    activating a locator whose name is not one that an Array keeps for
    itself (an index, or [length]) reads the file, creates the folder and
    writes the file, and so does activating it a second time. Two
    activations of the same locator make two writes, of the same content,
    and the store that is read from the file afterwards still has no entry
    for the name. *)
Theorem activatePackageManager_array_file (E : Env) (w : World)
    (raw name reference : string) (items : list json) :
  let locator := {| loc_name := name; loc_reference := Some reference |} in
  let content := JSON_stringify E (JArray (strings_or_null items)) +:+ newline in
  let step := [ReadLastKnownGood; MkdirHome; WriteLastKnownGood content] in
  let w1 := {| lkg_file := Ok content; trace := trace w ++ step |} in
  let w2 := {| lkg_file := Ok content; trace := trace w1 ++ step |} in
  lkg_file w = Ok raw →
  JSON_parse E raw = Ok (JArray items) →
  array_index name = None → name ≠ "length" →
  json_entries (JArray items) !! name = None →
  fs_mkdir E = Ok tt → fs_writeFile E content = Ok tt →
  JSON_parse E content = Ok (JArray (strings_or_null items)) →
  Engine.activatePackageManager E locator w = (Ok tt, w1) ∧
  Engine.activatePackageManager E locator w1 = (Ok tt, w2) ∧
  writes (trace w2) = 2 + writes (trace w) ∧
  storeOfContent E content !! name = None.
Proof.
  intros locator content step w1 w2 Hfile Hparse Hname _ Hentry Hm Hw Hback.
  assert (Hkept : json_entries (JArray (strings_or_null items)) !! name = None).
  { apply json_entries_no_index. rewrite length_strings_or_null.
    by apply json_entries_no_index. }
  split; [| split; [| split]].
  - by apply (activate_array E w raw).
  - pose proof (activate_array E w1 content name reference
                  (strings_or_null items)) as H.
    rewrite strings_or_null_again in H. by apply H.
  - subst w2 w1 step. simpl. rewrite !writes_app. unfold writes at 2 3.
    simpl. lia.
  - unfold storeOfContent. rewrite Hback.
    rewrite storeOfParsed_lookup by done. by rewrite Hkept.
Qed.

(** On the example: the file holds [[]], and yarn 1.22.19 is activated
    twice. *)
Lemma activatePackageManager_array_file_witness :
  let content := "[]" +:+ newline in
  let step := [ReadLastKnownGood; MkdirHome; WriteLastKnownGood content] in
  Engine.activatePackageManager Demo.plain Demo.yarnClassic (Demo.holding "[]")
    = (Ok tt, {| lkg_file := Ok content; trace := step |}) ∧
  Engine.activatePackageManager Demo.plain Demo.yarnClassic
      {| lkg_file := Ok content; trace := step |}
    = (Ok tt, {| lkg_file := Ok content; trace := step ++ step |}) ∧
  writes (step ++ step) = 2 ∧
  storeOfContent Demo.plain content !! "yarn" = None.
Proof.
  intros content step.
  apply (activatePackageManager_array_file Demo.plain (Demo.holding "[]")
           "[]" "yarn" "1.22.19" []);
    first [discriminate | vm_compute; reflexivity].
Defined.

(** The same on the file that holds ["1.22.19", 10]: what is written is the
    array of 1.22.19 and null. *)
Example activatePackageManager_listed_array :
  let content := Demo.stringifyJSON (JArray [JString "1.22.19"; JNull])
                 +:+ newline in
  Engine.activatePackageManager Demo.plain Demo.yarnClassic
      (Demo.holding Demo.listedContent)
    = (Ok tt, {| lkg_file := Ok content;
                 trace := [ReadLastKnownGood; MkdirHome;
                           WriteLastKnownGood content] |}) ∧
  storeOfContent Demo.plain content !! "yarn" = None.
Proof. split; vm_compute; reflexivity. Qed.

(** ** The default version *)

Lemma getLastKnownGoodFromFileContent_lookup (lkg : Store) (name : string) :
  getLastKnownGoodFromFileContent lkg name = lkg !! name.
Proof.
  unfold getLastKnownGoodFromFileContent. case_bool_decide as H; [done |].
  destruct (lkg !! name) eqn:Hl; [| done]. destruct H. by eexists.
Qed.

Lemma env_is_true (E : Env) (var value : string) :
  process_env E var = Some value → env_is E var value = true.
Proof. intros H. unfold env_is. by rewrite bool_decide_eq_true_2. Qed.

Lemma env_is_false (E : Env) (var value : string) :
  process_env E var ≠ Some value → env_is E var value = false.
Proof. intros H. unfold env_is. by rewrite bool_decide_eq_false_2. Qed.

(** The fetch of the latest version and the recording that follows: the
    recording cannot make it fail. *)
Lemma record_latest_ok (E : Env) (lkg : Store) (name reference : string)
    (w : World) :
  ∃ w', (try_catch
           (activatePackageManager E lkg
              {| loc_name := name; loc_reference := Some reference |}).2
           (λ _, mret tt)) w = (Ok tt, w') ∧
        ∃ more, trace w' = trace w ++ more ∧ network_calls more = [].
Proof.
  unfold try_catch, activatePackageManager. simpl.
  case_bool_decide; simpl.
  - exists w. split; [done |]. exists []. by rewrite app_nil_r.
  - unfold createLastKnownGoodFile, writeLastKnownGoodFile. run.
    destruct (fs_mkdir E) as [[] | e]; simpl.
    + destruct (fs_writeFile E _) as [[] | e]; simpl;
        eexists; (split; [reflexivity |]); simpl;
        eexists [_; _]; by rewrite <- app_assoc.
    + eexists; split; [reflexivity |]. by eexists [_].
Qed.

Lemma getDefaultVersion_fetches (E : Env) (packageManager : string)
    (definition : PackageManagerDefinition) (w w1 : World) (store : Store)
    (reference : string) :
  definitions (config E) !! packageManager = Some definition →
  getLastKnownGood E w = (Ok store, w1) →
  store !! packageManager = None ∨
    store !! packageManager = Some EmptyString →
  process_env E "COREPACK_DEFAULT_TO_LATEST" ≠ Some "0" →
  fetchLatestStableVersion E (def_fetchLatestFrom definition) = Ok reference →
  ∃ w2 more,
    Engine.getDefaultVersion E packageManager w = (Ok reference, w2) ∧
    trace w2 = trace w1 ++
      FetchLatestStableVersion (def_fetchLatestFrom definition) :: more.
Proof.
  intros Hdef Hload Hnone H0 Hfetch. unfold Engine.getDefaultVersion.
  rewrite Hdef, (bind_ok _ _ _ _ _ Hload).
  rewrite getLastKnownGoodFromFileContent_lookup.
  rewrite if_truthy_no by done. rewrite env_is_false by done.
  destruct (record_latest_ok E store packageManager reference
              (log (FetchLatestStableVersion (def_fetchLatestFrom definition)) w1))
    as (w2 & Hrec & more & Htrace & _).
  exists w2, more. split.
  - unfold mbind at 1, M_bind at 1, call at 1. rewrite Hfetch.
    unfold mbind, M_bind. rewrite Hrec. reflexivity.
  - rewrite Htrace. simpl. by rewrite <- app_assoc.
Qed.

(** C7, as the code has it. For a tool with a definition, and once the store
    is loaded: an entry of the store that is not the empty string is the
    default version, whatever else is configured, and nothing is fetched or
    written; with no entry, or with the empty string as entry, the default is
    the static one of the definition when COREPACK_DEFAULT_TO_LATEST is 0,
    and else the latest stable version that was fetched. *)
Theorem getDefaultVersion_prefers_store (E : Env) (packageManager : string)
    (definition : PackageManagerDefinition) (w w1 : World) (store : Store) :
  definitions (config E) !! packageManager = Some definition →
  getLastKnownGood E w = (Ok store, w1) →
  (∀ v, store !! packageManager = Some v → v ≠ EmptyString →
        Engine.getDefaultVersion E packageManager w = (Ok v, w1)) ∧
  (store !! packageManager = None ∨
   store !! packageManager = Some EmptyString →
     (process_env E "COREPACK_DEFAULT_TO_LATEST" = Some "0" →
        Engine.getDefaultVersion E packageManager w
          = (Ok (def_default definition), w1)) ∧
     (process_env E "COREPACK_DEFAULT_TO_LATEST" ≠ Some "0" →
      ∀ reference,
        fetchLatestStableVersion E (def_fetchLatestFrom definition)
          = Ok reference →
        ∃ w2 more,
          Engine.getDefaultVersion E packageManager w = (Ok reference, w2) ∧
          trace w2 = trace w1 ++
            FetchLatestStableVersion (def_fetchLatestFrom definition) :: more)).
Proof.
  intros Hdef Hload. split; [| intros Hnone; split].
  - intros v Hv Hne. unfold Engine.getDefaultVersion.
    rewrite Hdef, (bind_ok _ _ _ _ _ Hload).
    rewrite getLastKnownGoodFromFileContent_lookup, Hv.
    by rewrite if_truthy_yes.
  - intros H0. unfold Engine.getDefaultVersion.
    rewrite Hdef, (bind_ok _ _ _ _ _ Hload).
    rewrite getLastKnownGoodFromFileContent_lookup.
    rewrite if_truthy_no by done. by rewrite env_is_true.
  - intros H0 reference Hfetch.
    by apply (getDefaultVersion_fetches E packageManager definition w w1 store).
Qed.

(** On the example: the store file holds yarn 1.22.19, and that is the
    default, with only the file read. *)
Lemma getDefaultVersion_prefers_store_witness :
  Engine.getDefaultVersion Demo.plain "yarn"
      (Demo.written (<["yarn" := "1.22.19"]> ∅))
    = (Ok "1.22.19",
       log ReadLastKnownGood (Demo.written (<["yarn" := "1.22.19"]> ∅))).
Proof.
  apply (getDefaultVersion_prefers_store Demo.plain "yarn" Demo.yarn
           (Demo.written (<["yarn" := "1.22.19"]> ∅))
           (log ReadLastKnownGood (Demo.written (<["yarn" := "1.22.19"]> ∅)))
           (<["yarn" := "1.22.19"]> ∅));
    [reflexivity | vm_compute; reflexivity | reflexivity | discriminate].
Defined.

(** C7, as it is written, fails on a store whose entry for the tool is the
    empty string: the entry is there, and the static default is returned. *)
Lemma getDefaultVersion_empty_entry :
  ¬ (∀ (store : Store) (w1 : World) (v : string),
       getLastKnownGood Demo.staticDefault
         (Demo.written (<["yarn" := EmptyString]> ∅)) = (Ok store, w1) →
       store !! "yarn" = Some v →
       Engine.getDefaultVersion Demo.staticDefault "yarn"
         (Demo.written (<["yarn" := EmptyString]> ∅)) = (Ok v, w1)).
Proof.
  intros H.
  specialize (H (<["yarn" := EmptyString]> ∅)
                (log ReadLastKnownGood (Demo.written (<["yarn" := EmptyString]> ∅)))
                EmptyString).
  assert (Hrun : Engine.getDefaultVersion Demo.staticDefault "yarn"
                   (Demo.written (<["yarn" := EmptyString]> ∅))
                 = (Ok "1.22.22",
                    log ReadLastKnownGood
                      (Demo.written (<["yarn" := EmptyString]> ∅))))
    by (vm_compute; reflexivity).
  rewrite Hrun in H.
  assert (Hno : (Ok "1.22.22" : result string) ≠ Ok EmptyString) by discriminate.
  apply Hno.
  assert (Heq := H ltac:(vm_compute; reflexivity) ltac:(reflexivity)).
  congruence.
Qed.

(** ** The project's pin *)

Lemma findProjectSpec_load (E : Env) (cwd : string) (locator : Locator)
    (transparent : bool) (w : World) (loaded : LoadSpecResult) :
  process_env E "COREPACK_ENABLE_PROJECT_SPEC" ≠ Some "0" →
  loadSpec E cwd = Ok loaded →
  let fallbackDescriptor :=
    {| desc_name := loc_name locator;
       desc_range := tpl (loc_reference locator) |} in
  Engine.findProjectSpec E cwd locator transparent w =
    match loaded with
    | NoProject _ => (Ok fallbackDescriptor, log (LoadSpec cwd) w)
    | NoSpec target =>
        if env_is E "COREPACK_ENABLE_AUTO_PIN" "0"
        then (Ok fallbackDescriptor, log (LoadSpec cwd) w)
        else match Engine.autoPin E fallbackDescriptor target
                     (log (LoadSpec cwd) w) with
             | (Ok _, w') => (Ok fallbackDescriptor, w')
             | (Throw e, w') => (Throw e, w')
             end
    | Found target spec =>
        if String.eqb (desc_name spec) (loc_name locator)
        then (Ok spec, log (LoadSpec cwd) w)
        else if transparent || env_is E "COREPACK_ENABLE_STRICT" "0"
        then (Ok fallbackDescriptor, log (LoadSpec cwd) w)
        else (Throw (Engine.projectMismatch spec target), log (LoadSpec cwd) w)
    end.
Proof.
  intros Hon Hload fallbackDescriptor. unfold Engine.findProjectSpec.
  rewrite env_is_false by done. fold fallbackDescriptor.
  unfold mbind at 1, M_bind at 1, call at 1. rewrite Hload.
  destruct loaded as [target | target | target spec].
  - done.
  - destruct (env_is E "COREPACK_ENABLE_AUTO_PIN" "0"); simpl; [done |].
    run. by destruct (Engine.autoPin _ _ _ _) as [[[] | e] w'].
  - destruct (String.eqb _ _); simpl; [done |].
    destruct (env_is E "COREPACK_ENABLE_STRICT" "0"), transparent; done.
Qed.

Lemma autoPin_run (E : Env) (fallback : Descriptor) (target : string)
    (w : World) :
  Engine.autoPin E fallback target w =
    match Engine.resolveDescriptor E fallback true true w with
    | (Throw e, w1) => (Throw e, w1)
    | (Ok None, w1) => (Throw (Engine.resolutionFailed fallback), w1)
    | (Ok (Some resolved), w1) =>
        match Engine.ensurePackageManager E resolved w1 with
        | (Throw e, w2) => (Throw e, w2)
        | (Ok installSpec, w2) =>
            (setLocalPackageManager E (path_dirname E target) installSpec,
             log (SetLocalPackageManager (path_dirname E target) installSpec) w2)
        end
    end.
Proof.
  unfold Engine.autoPin. run.
  destruct (Engine.resolveDescriptor E fallback true true w)
    as [[[resolved |] | e] w1]; [| done | done].
  by destruct (Engine.ensurePackageManager E resolved w1) as [[info | e] w2].
Qed.

(** C6, as the code has it. Recording the latest stable version that
    [getDefaultVersion] fetched is best-effort: whatever creating the home
    folder and writing the file answer, the fetched version is returned.
    The auto-pin of [findProjectSpec] is not: in a project with no pin the
    fallback descriptor is returned when auto-pin is off, or when the
    resolution, the installation and the write of the pin all succeed; a
    resolution to nothing fails as a failed resolution, and what the
    resolution, the installation or the write throws is thrown by
    [findProjectSpec]. *)
Theorem best_effort_writes (E : Env) :
  (∀ packageManager definition w w1 (store : Store) reference,
     definitions (config E) !! packageManager = Some definition →
     getLastKnownGood E w = (Ok store, w1) →
     store !! packageManager = None ∨
       store !! packageManager = Some EmptyString →
     process_env E "COREPACK_DEFAULT_TO_LATEST" ≠ Some "0" →
     fetchLatestStableVersion E (def_fetchLatestFrom definition)
       = Ok reference →
     ∃ w2, Engine.getDefaultVersion E packageManager w = (Ok reference, w2)) ∧
  (∀ cwd locator transparent w target,
     process_env E "COREPACK_ENABLE_PROJECT_SPEC" ≠ Some "0" →
     loadSpec E cwd = Ok (NoSpec target) →
     let fallbackDescriptor :=
       {| desc_name := loc_name locator;
          desc_range := tpl (loc_reference locator) |} in
     let w1 := log (LoadSpec cwd) w in
     let dir := path_dirname E target in
     (process_env E "COREPACK_ENABLE_AUTO_PIN" = Some "0" →
        Engine.findProjectSpec E cwd locator transparent w
          = (Ok fallbackDescriptor, w1)) ∧
     (process_env E "COREPACK_ENABLE_AUTO_PIN" ≠ Some "0" →
        (∀ e w2,
           Engine.resolveDescriptor E fallbackDescriptor true true w1
             = (Throw e, w2) →
           Engine.findProjectSpec E cwd locator transparent w = (Throw e, w2)) ∧
        (∀ w2,
           Engine.resolveDescriptor E fallbackDescriptor true true w1
             = (Ok None, w2) →
           Engine.findProjectSpec E cwd locator transparent w
             = (Throw (Engine.resolutionFailed fallbackDescriptor), w2)) ∧
        (∀ resolved w2,
           Engine.resolveDescriptor E fallbackDescriptor true true w1
             = (Ok (Some resolved), w2) →
           (∀ e w3,
              Engine.ensurePackageManager E resolved w2 = (Throw e, w3) →
              Engine.findProjectSpec E cwd locator transparent w
                = (Throw e, w3)) ∧
           (∀ installSpec w3,
              Engine.ensurePackageManager E resolved w2 = (Ok installSpec, w3) →
              let w4 := log (SetLocalPackageManager dir installSpec) w3 in
              (∀ e, setLocalPackageManager E dir installSpec = Throw e →
                    Engine.findProjectSpec E cwd locator transparent w
                      = (Throw e, w4)) ∧
              (setLocalPackageManager E dir installSpec = Ok tt →
               Engine.findProjectSpec E cwd locator transparent w
                 = (Ok fallbackDescriptor, w4)))))).
Proof.
  split.
  - intros pm definition w w1 store reference Hdef Hload Hnone Hlatest Hfetch.
    destruct (getDefaultVersion_fetches E pm definition w w1 store reference
                Hdef Hload Hnone Hlatest Hfetch) as (w2 & more & Hrun & _).
    by exists w2.
  - intros cwd locator transparent w target Hon Hload fallbackDescriptor w1 dir.
    rewrite (findProjectSpec_load E cwd locator transparent w _ Hon Hload).
    fold fallbackDescriptor w1. split.
    + intros Hoff. by rewrite env_is_true.
    + intros Hpin. rewrite env_is_false by done. rewrite autoPin_run.
      split; [| split].
      * by intros e w2 ->.
      * by intros w2 ->.
      * intros resolved w2 ->. split.
        -- by intros e w3 ->.
        -- intros installSpec w3 ->. fold dir. split.
           ++ by intros e ->.
           ++ by intros ->.
Qed.

(** On the examples: the home folder is read-only and the latest yarn is
    still the default; the pin is written and the fallback is returned. *)
Lemma best_effort_writes_witness :
  (∃ w2, Engine.getDefaultVersion Demo.readOnlyHome "yarn" Demo.absent
           = (Ok "1.22.19", w2)) ∧
  (∃ w4, Engine.findProjectSpec (Demo.unpinned (Ok tt)) "/home/user/project"
           Demo.yarnClassic false Demo.absent
           = (Ok {| desc_name := "yarn"; desc_range := "1.22.19" |}, w4)).
Proof.
  split.
  - apply (proj1 (best_effort_writes Demo.readOnlyHome) "yarn" Demo.yarn
             Demo.absent (log ReadLastKnownGood Demo.absent) ∅ "1.22.19");
      [reflexivity | reflexivity | by left | discriminate | reflexivity].
  - destruct (proj2 (best_effort_writes (Demo.unpinned (Ok tt)))
                "/home/user/project" Demo.yarnClassic false Demo.absent
                Demo.project ltac:(discriminate) eq_refl) as [_ H].
    destruct (H ltac:(discriminate)) as (_ & _ & Hres).
    edestruct Hres as [_ Hens]; [vm_compute; reflexivity |].
    edestruct Hens as [_ Hpin]; [vm_compute; reflexivity |].
    eexists. apply Hpin. reflexivity.
Defined.

(** C6, as it is written, fails on the auto-pin: in a project with no pin,
    when the pin cannot be written, [findProjectSpec] throws instead of
    returning the fallback descriptor. *)
Lemma autoPin_failure_propagates :
  ¬ (∃ w', Engine.findProjectSpec (Demo.unpinned (Throw (NodeError "EACCES")))
             "/home/user/project" Demo.yarnClassic false Demo.absent
           = (Ok {| desc_name := "yarn"; desc_range := "1.22.19" |}, w')).
Proof.
  intros [w' H]. vm_compute in H. discriminate H.
Qed.

Lemma append_assoc (a b c : string) : (a +:+ b) +:+ c = a +:+ (b +:+ c).
Proof.
  induction a as [| ch a IH]; [reflexivity |].
  change (String ch ((a +:+ b) +:+ c) = String ch (a +:+ (b +:+ c))).
  by rewrite IH.
Qed.

Lemma projectMismatch_names_target (spec : Descriptor) (target : string) :
  ∃ before after,
    Engine.projectMismatch spec target
      = UsageError (before +:+ target +:+ after).
Proof.
  exists ("This project is configured to use " +:+ desc_name spec +:+
          " because "),
         (" has a " +:+ dquote +:+ "packageManager" +:+ dquote +:+ " field").
  unfold Engine.projectMismatch. f_equal.
  by rewrite !append_assoc.
Qed.

(** C5. When the loader finds a pin in the project: a pin for another tool
    than the fallback locator's gives the fallback descriptor in transparent
    mode (asked for by the caller, or forced by COREPACK_ENABLE_STRICT=0) and
    otherwise the usage error of the mismatch, whose message holds the path of
    the project file; a pin for the same tool is returned as it is. *)
Theorem findProjectSpec_found (E : Env) (cwd : string) (locator : Locator)
    (transparent : bool) (w : World) (target : string) (spec : Descriptor) :
  process_env E "COREPACK_ENABLE_PROJECT_SPEC" ≠ Some "0" →
  loadSpec E cwd = Ok (Found target spec) →
  let fallbackDescriptor :=
    {| desc_name := loc_name locator;
       desc_range := tpl (loc_reference locator) |} in
  let transparentMode :=
    transparent || env_is E "COREPACK_ENABLE_STRICT" "0" in
  let w' := log (LoadSpec cwd) w in
  (desc_name spec ≠ loc_name locator → transparentMode = true →
     Engine.findProjectSpec E cwd locator transparent w
       = (Ok fallbackDescriptor, w')) ∧
  (desc_name spec ≠ loc_name locator → transparentMode = false →
     Engine.findProjectSpec E cwd locator transparent w
       = (Throw (Engine.projectMismatch spec target), w') ∧
     ∃ before after,
       Engine.projectMismatch spec target
         = UsageError (before +:+ target +:+ after)) ∧
  (desc_name spec = loc_name locator →
     Engine.findProjectSpec E cwd locator transparent w = (Ok spec, w')).
Proof.
  intros Hon Hload fallbackDescriptor transparentMode w'.
  rewrite (findProjectSpec_load E cwd locator transparent w _ Hon Hload).
  fold fallbackDescriptor transparentMode w'.
  split; [| split].
  - intros Hne Ht. rewrite (proj2 (String.eqb_neq _ _) Hne). by rewrite Ht.
  - intros Hne Ht. rewrite (proj2 (String.eqb_neq _ _) Hne). rewrite Ht.
    split; [done | apply projectMismatch_names_target].
  - intros Heq. by rewrite (proj2 (String.eqb_eq _ _) Heq).
Qed.

(** On the example of the specification: the project file declares pnpm
    8.6.0 and yarn is requested, not transparently; then with
    COREPACK_ENABLE_STRICT=0; then a project that declares yarn 4.0.0. *)
Lemma findProjectSpec_found_witness :
  Engine.findProjectSpec (Demo.pinned Demo.pnpm8) "/home/user/project"
      Demo.yarnClassic false Demo.absent
    = (Throw (Engine.projectMismatch Demo.pnpm8 Demo.project),
       log (LoadSpec "/home/user/project") Demo.absent) ∧
  Engine.findProjectSpec (Demo.pinned Demo.pnpm8) "/home/user/project"
      Demo.yarnClassic true Demo.absent
    = (Ok {| desc_name := "yarn"; desc_range := "1.22.19" |},
       log (LoadSpec "/home/user/project") Demo.absent) ∧
  Engine.findProjectSpec (Demo.pinned Demo.yarn4) "/home/user/project"
      Demo.yarnClassic false Demo.absent
    = (Ok Demo.yarn4, log (LoadSpec "/home/user/project") Demo.absent).
Proof.
  split; [| split].
  - apply (findProjectSpec_found (Demo.pinned Demo.pnpm8) "/home/user/project"
             Demo.yarnClassic false Demo.absent Demo.project Demo.pnpm8);
      [discriminate | reflexivity | discriminate | reflexivity].
  - apply (findProjectSpec_found (Demo.pinned Demo.pnpm8) "/home/user/project"
             Demo.yarnClassic true Demo.absent Demo.project Demo.pnpm8);
      [discriminate | reflexivity | discriminate | reflexivity].
  - apply (findProjectSpec_found (Demo.pinned Demo.yarn4) "/home/user/project"
             Demo.yarnClassic false Demo.absent Demo.project Demo.yarn4);
      [discriminate | reflexivity | reflexivity].
Defined.

(** ** Resolution *)




(** *** Sets and sorting *)

Lemma elem_of_uniq (l : list string) (x : string) : x ∈ uniq l ↔ x ∈ l.
Proof.
  induction l as [| y l IH]; simpl; [done |].
  rewrite !elem_of_cons, list_elem_of_filter, IH.
  destruct (decide (x = y)); naive_solver.
Qed.

Lemma NoDup_uniq (l : list string) : NoDup (uniq l).
Proof.
  induction l as [| y l IH]; simpl; [constructor |].
  constructor.
  - rewrite list_elem_of_filter. naive_solver.
  - by apply NoDup_filter.
Qed.

Lemma elem_of_sort_insert {A} (cmp : A → A → Z) (x y : A) (l : list A) :
  y ∈ sort_insert cmp x l ↔ y = x ∨ y ∈ l.
Proof.
  induction l as [| z l IH]; simpl.
  - rewrite list_elem_of_singleton, elem_of_nil. naive_solver.
  - destruct (cmp x z <=? 0)%Z.
    + by rewrite elem_of_cons.
    + rewrite !elem_of_cons, IH. naive_solver.
Qed.

Lemma elem_of_sort {A} (cmp : A → A → Z) (y : A) (l : list A) :
  y ∈ sort cmp l ↔ y ∈ l.
Proof.
  induction l as [| x l IH]; simpl; [done |].
  by rewrite elem_of_sort_insert, elem_of_cons, IH.
Qed.

Lemma sort_nil {A} (cmp : A → A → Z) (l : list A) : sort cmp l = [] ↔ l = [].
Proof.
  split; [| by intros ->].
  intros Hs. destruct l as [| x l]; [done |].
  assert (Hx : x ∈ sort cmp (x :: l)) by (apply elem_of_sort; left).
  rewrite Hs in Hx. by apply elem_of_nil in Hx.
Qed.

Section SortHead.
Context {A : Type} (cmp : A → A → Z).

Lemma sort_head_first (l : list A) (h : A) (rest : list A) :
  total_on cmp l → transitive_on cmp l →
  sort cmp l = h :: rest →
  ∀ v, v ∈ l → (cmp h v <= 0)%Z.
Proof.
  revert h rest. induction l as [| x l IH]; intros h rest Htot Htr Hs v Hv.
  - by apply elem_of_nil in Hv.
  - assert (Htot' : total_on cmp l).
    { intros a b Ha Hb. apply Htot; by right. }
    assert (Htr' : transitive_on cmp l).
    { intros a b c Ha Hb Hc. apply Htr; by right. }
    assert (Hxx : (cmp x x <= 0)%Z).
    { destruct (Htot x x) as [H | H]; (done || by left). }
    simpl in Hs. destruct (sort cmp l) as [| y s'] eqn:Hsl.
    + apply sort_nil in Hsl as ->. simpl in Hs.
      injection Hs as <- <-.
      apply elem_of_cons in Hv as [-> | Hv]; [done |].
      by apply elem_of_nil in Hv.
    + assert (Hy : y ∈ l).
      { apply (elem_of_sort cmp). rewrite Hsl. left. }
      specialize (IH y s' Htot' Htr' eq_refl).
      simpl in Hs. destruct (cmp x y <=? 0)%Z eqn:Hxy.
      * injection Hs as <- <-. apply Z.leb_le in Hxy.
        apply elem_of_cons in Hv as [-> | Hv]; [done |].
        apply (Htr x y v); [by left | by right | by right | done | by apply IH].
      * injection Hs as <- <-. apply Z.leb_gt in Hxy.
        apply elem_of_cons in Hv as [-> | Hv]; [| by apply IH].
        destruct (Htot y x) as [H | H]; [by right | by left | done | lia].
Qed.
End SortHead.

(** *** The steps of a resolution *)

Lemma logs_log (e : event) (es : list event) (w : World) :
  logs es (log e w) = logs (e :: es) w.
Proof. unfold logs, log. simpl. by rewrite <- app_assoc. Qed.

Lemma log_logs (e : event) (w : World) : log e w = logs [e] w.
Proof. done. Qed.

Lemma logs_nil (w : World) : logs [] w = w.
Proof. destruct w. unfold logs. simpl. by rewrite app_nil_r. Qed.

Lemma network_calls_app (t u : list event) :
  network_calls (t ++ u) = network_calls t ++ network_calls u.
Proof. apply filter_app. Qed.

(** A supported descriptor with a definition whose range is not a tag goes
    straight to the cache and the listings. *)
Lemma resolveDescriptor_no_tag (E : Env) (descriptor : Descriptor)
    (definition : PackageManagerDefinition) (allowTags useCache : bool)
    (w : World) :
  isSupportedPackageManagerDescriptor E descriptor = true →
  definitions (config E) !! desc_name descriptor = Some definition →
  truthy (semverValid E (desc_range descriptor)) = true ∨
    truthy (semverValidRange E (desc_range descriptor)) = true →
  Engine.resolveDescriptor E descriptor allowTags useCache w
    = Engine.resolveFinal E definition descriptor useCache w.
Proof.
  intros Hs Hd Hv. unfold Engine.resolveDescriptor. rewrite Hs, Hd. simpl.
  assert (negb (truthy (semverValid E (desc_range descriptor)))
          && negb (truthy (semverValidRange E (desc_range descriptor)))
          = false) as ->.
  { destruct Hv as [-> | ->]; [done | by rewrite andb_false_r]. }
  done.
Qed.

(** A supported descriptor with a definition whose range is a tag goes
    through the tag lookup. *)
Lemma resolveDescriptor_through_tag (E : Env) (descriptor : Descriptor)
    (definition : PackageManagerDefinition) (allowTags useCache : bool)
    (w : World) :
  isSupportedPackageManagerDescriptor E descriptor = true →
  definitions (config E) !! desc_name descriptor = Some definition →
  truthy (semverValid E (desc_range descriptor)) = false →
  truthy (semverValidRange E (desc_range descriptor)) = false →
  Engine.resolveDescriptor E descriptor allowTags useCache w
    = (Engine.resolveTag E definition descriptor allowTags ≫=
       λ finalDescriptor,
         Engine.resolveFinal E definition finalDescriptor useCache) w.
Proof.
  intros Hs Hd Hv Hr. unfold Engine.resolveDescriptor.
  by rewrite Hs, Hd, Hv, Hr.
Qed.

Lemma resolveFinal_exact (E : Env) (definition : PackageManagerDefinition)
    (descriptor : Descriptor) (useCache : bool) (w : World) :
  truthy (semverValid E (desc_range descriptor)) = true →
  Engine.resolveFinal E definition descriptor useCache w =
    (match findInstalledVersion E descriptor with
     | Throw e => Throw e
     | Ok cached =>
         Ok (Some {| loc_name := desc_name descriptor;
                     loc_reference :=
                       if bool_decide (cached ≠ None) && useCache
                       then cached else Some (desc_range descriptor) |})
     end, log (FindInstalledVersion descriptor) w).
Proof.
  intros Hv. unfold Engine.resolveFinal. run.
  destruct (findInstalledVersion E descriptor) as [cached | e]; [| done].
  destruct (bool_decide (cached ≠ None) && useCache); [done |].
  by rewrite Hv.
Qed.

(** C2, as the code has it. A descriptor of a supported tool whose range is
    a valid exact version makes one call, to the install cache, and none to a
    registry. When the cache holds a version for it and the cache is in use,
    the cached version is the reference; otherwise the range is the
    reference, unchanged. What the cache lookup throws is thrown. *)
Theorem resolveDescriptor_exact (E : Env) (descriptor : Descriptor)
    (definition : PackageManagerDefinition) (allowTags useCache : bool)
    (w : World) :
  isSupportedPackageManagerDescriptor E descriptor = true →
  definitions (config E) !! desc_name descriptor = Some definition →
  truthy (semverValid E (desc_range descriptor)) = true →
  let w' := log (FindInstalledVersion descriptor) w in
  let resolve := Engine.resolveDescriptor E descriptor allowTags useCache w in
  (∀ cached, findInstalledVersion E descriptor = Ok (Some cached) →
     useCache = true →
     resolve = (Ok (Some {| loc_name := desc_name descriptor;
                            loc_reference := Some cached |}), w')) ∧
  (∀ cached, findInstalledVersion E descriptor = Ok cached →
     cached = None ∨ useCache = false →
     resolve = (Ok (Some {| loc_name := desc_name descriptor;
                            loc_reference := Some (desc_range descriptor) |}),
                w')) ∧
  (∀ e, findInstalledVersion E descriptor = Throw e →
     resolve = (Throw e, w')) ∧
  resolve.2 = w' ∧
  network_calls (trace w') = network_calls (trace w).
Proof.
  intros Hs Hd Hv w' resolve. subst resolve.
  rewrite (resolveDescriptor_no_tag E descriptor definition) by auto.
  rewrite resolveFinal_exact by done. fold w'.
  split; [| split; [| split; [| split]]].
  - by intros cached -> ->.
  - intros cached -> [-> | ->]; [done |]. by rewrite andb_false_r.
  - by intros e ->.
  - done.
  - subst w'. simpl. rewrite network_calls_app. simpl. apply app_nil_r.
Qed.

(** On the examples: nothing installed, and yarn 1.22.19 asked for; yarn
    1.22.19 installed, and the same version asked for with a hash. *)
Lemma resolveDescriptor_exact_witness :
  Engine.resolveDescriptor Demo.plain Demo.yarnExact false true Demo.absent
    = (Ok (Some {| loc_name := "yarn"; loc_reference := Some "1.22.19" |}),
       log (FindInstalledVersion Demo.yarnExact) Demo.absent) ∧
  Engine.resolveDescriptor Demo.cached Demo.yarnHashed false true Demo.absent
    = (Ok (Some {| loc_name := "yarn"; loc_reference := Some "1.22.19" |}),
       log (FindInstalledVersion Demo.yarnHashed) Demo.absent).
Proof.
  split.
  - apply (resolveDescriptor_exact Demo.plain Demo.yarnExact Demo.yarn
             false true Demo.absent eq_refl eq_refl eq_refl) with (cached := None);
      [reflexivity | by left].
  - apply (resolveDescriptor_exact Demo.cached Demo.yarnHashed Demo.yarn
             false true Demo.absent eq_refl eq_refl eq_refl);
      reflexivity.
Defined.

(** C2, as it is written, fails when the install cache answers: the
    reference is then the installed version, here without the hash that the
    range carries. *)
Lemma resolveDescriptor_exact_cached :
  ¬ (∃ w', Engine.resolveDescriptor Demo.cached Demo.yarnHashed false true
             Demo.absent
           = (Ok (Some {| loc_name := "yarn";
                          loc_reference := Some (desc_range Demo.yarnHashed) |}),
              w')).
Proof.
  intros [w' H]. vm_compute in H. discriminate H.
Qed.

Lemma ranges_get_key (definition : PackageManagerDefinition) (key : string) :
  key ∈ Engine.range_keys definition →
  is_Some (Engine.ranges_get definition (Some key)).
Proof.
  unfold Engine.range_keys, Engine.ranges_get. simpl.
  induction (def_ranges definition) as [| [k spec] l IH]; simpl.
  - intros H. by apply elem_of_nil in H.
  - intros H. case_bool_decide as Hk; simpl; [by eexists |].
    apply elem_of_cons in H as [-> | H]; [done | by apply IH].
Qed.

Lemma resolveTag_run (E : Env) (definition : PackageManagerDefinition)
    (descriptor : Descriptor) (w : World) (key : string)
    (spec : PackageManagerSpec) (tags : gmap string string) :
  last (Engine.range_keys definition) = Some key →
  Engine.ranges_get definition (Some key) = Some spec →
  fetchAvailableTags E (getRegistryFromPackageManagerSpec E spec) = Ok tags →
  Engine.resolveTag E definition descriptor true w =
    (match tags !! desc_range descriptor with
     | None => Throw (Engine.tagNotFound (desc_range descriptor))
     | Some version =>
         Ok {| desc_name := desc_name descriptor; desc_range := version |}
     end,
     log (FetchAvailableTags (getRegistryFromPackageManagerSpec E spec)) w).
Proof.
  intros Hlast Hspec Htags. unfold Engine.resolveTag. simpl.
  rewrite Hlast, Hspec. run. simpl. rewrite Htags.
  by destruct (tags !! desc_range descriptor).
Qed.

(** C3. A descriptor of a supported tool whose range is neither a valid
    version nor a valid range is a tag. Where tags are not allowed the
    resolution fails at once, with no call made. Where they are, the tag map
    is fetched from the registry of the last range key, and from no other;
    the tag lookup fails, as a tag not found, exactly when the map has no
    entry for the range; with an entry, the resolution goes on from the
    descriptor of that entry, and when the entry is a valid version (of a
    descriptor again supported) this is the resolution of that descriptor,
    run after the fetch of the tags. *)
Theorem resolveDescriptor_tag (E : Env) (descriptor : Descriptor)
    (definition : PackageManagerDefinition) (useCache : bool) (w : World) :
  isSupportedPackageManagerDescriptor E descriptor = true →
  definitions (config E) !! desc_name descriptor = Some definition →
  truthy (semverValid E (desc_range descriptor)) = false →
  truthy (semverValidRange E (desc_range descriptor)) = false →
  Engine.resolveDescriptor E descriptor false useCache w
    = (Throw Engine.tagsNotAllowed, w) ∧
  (∀ key spec tags,
     last (Engine.range_keys definition) = Some key →
     Engine.ranges_get definition (Some key) = Some spec →
     let registry := getRegistryFromPackageManagerSpec E spec in
     fetchAvailableTags E registry = Ok tags →
     let w' := log (FetchAvailableTags registry) w in
     let tag := desc_range descriptor in
     (Engine.resolveTag E definition descriptor true w
        = (Throw (Engine.tagNotFound tag), w') ↔ tags !! tag = None) ∧
     (tags !! tag = None →
        Engine.resolveDescriptor E descriptor true useCache w
          = (Throw (Engine.tagNotFound tag), w')) ∧
     (∀ version, tags !! tag = Some version →
        let mapped :=
          {| desc_name := desc_name descriptor; desc_range := version |} in
        Engine.resolveDescriptor E descriptor true useCache w
          = Engine.resolveFinal E definition mapped useCache w' ∧
        (truthy (semverValid E version) = true →
         isSupportedPackageManagerDescriptor E mapped = true →
         ∀ allowTags,
           Engine.resolveDescriptor E descriptor true useCache w
             = Engine.resolveDescriptor E mapped allowTags useCache w'))).
Proof.
  intros Hs Hd Hv Hr. split.
  - rewrite (resolveDescriptor_through_tag E descriptor definition) by done.
    done.
  - intros key spec tags Hlast Hspec registry Htags w' tag.
    rewrite (resolveDescriptor_through_tag E descriptor definition) by done.
    pose proof (resolveTag_run E definition descriptor w key spec tags
                  Hlast Hspec Htags) as Hrun.
    fold registry w' tag in Hrun. split; [| split].
    + rewrite Hrun. destruct (tags !! tag); split; (done || congruence).
    + intros Hnone. rewrite Hnone in Hrun.
      by rewrite (bind_throw _ _ _ _ _ Hrun).
    + intros version Hsome mapped. rewrite Hsome in Hrun.
      rewrite (bind_ok _ _ _ _ _ Hrun). fold mapped. split; [done |].
      intros Hvalid Hmapped allowTags.
      by rewrite (resolveDescriptor_no_tag E mapped definition) by auto.
Qed.

(** On the examples: the tag [latest] of yarn, first where tags are not
    allowed, then where they are: it is read from the registry of the key
    [>=2.0.0] and resolves as 2.0.0 does; an unknown tag. *)
Lemma resolveDescriptor_tag_witness :
  Engine.resolveDescriptor Demo.plain Demo.yarnLatest false true Demo.absent
    = (Throw Engine.tagsNotAllowed, Demo.absent) ∧
  Engine.resolveDescriptor Demo.plain Demo.yarnLatest true true Demo.absent
    = Engine.resolveDescriptor Demo.plain
        {| desc_name := "yarn"; desc_range := "2.0.0" |} false true
        (log (FetchAvailableTags Demo.berry) Demo.absent) ∧
  Engine.resolveDescriptor Demo.plain Demo.yarnNightly true true Demo.absent
    = (Throw (Engine.tagNotFound "nightly"),
       log (FetchAvailableTags Demo.berry) Demo.absent).
Proof.
  split; [| split].
  - apply (resolveDescriptor_tag Demo.plain Demo.yarnLatest Demo.yarn true
             Demo.absent eq_refl eq_refl eq_refl eq_refl).
  - destruct (resolveDescriptor_tag Demo.plain Demo.yarnLatest Demo.yarn true
                Demo.absent eq_refl eq_refl eq_refl eq_refl) as [_ H].
    destruct (H ">=2.0.0" Demo.specB _ eq_refl eq_refl eq_refl)
      as (_ & _ & Hknown).
    destruct (Hknown "2.0.0" eq_refl) as [_ Hsame].
    exact (Hsame eq_refl eq_refl false).
  - destruct (resolveDescriptor_tag Demo.plain Demo.yarnNightly Demo.yarn true
                Demo.absent eq_refl eq_refl eq_refl eq_refl) as [_ H].
    destruct (H ">=2.0.0" Demo.specB _ eq_refl eq_refl eq_refl)
      as (_ & Hunknown & _).
    exact (Hunknown eq_refl).
Defined.

Lemma fetchRange_run (E : Env) (definition : PackageManagerDefinition)
    (descriptor : Descriptor) (key : string) (spec : PackageManagerSpec)
    (versions : list string) (w : World) :
  Engine.ranges_get definition (Some key) = Some spec →
  fetchAvailableVersions E (getRegistryFromPackageManagerSpec E spec)
    = Ok versions →
  Engine.fetchRange E definition descriptor key w =
    (Ok (filter (λ version,
           satisfiesWithPrereleases E (Some version) (desc_range descriptor)
             = true) versions),
     log (FetchAvailableVersions (getRegistryFromPackageManagerSpec E spec)) w).
Proof.
  intros Hspec Hfetch. unfold Engine.fetchRange. rewrite Hspec. run. simpl.
  by rewrite Hfetch.
Qed.

(** All the listings answer: every one is fetched, in the order of the keys,
    and filtered. *)
Lemma promise_all_fetch (E : Env) (definition : PackageManagerDefinition)
    (descriptor : Descriptor) (keys : list string) :
  ∀ (listings : list (list string)) (w : World),
    (∀ key, key ∈ keys →
            is_Some (Engine.ranges_get definition (Some key))) →
    Forall2 (λ spec versions,
        fetchAvailableVersions E (getRegistryFromPackageManagerSpec E spec)
          = Ok versions)
      (omap (λ key, Engine.ranges_get definition (Some key)) keys) listings →
    promise_all (Engine.fetchRange E definition descriptor <$> keys) w =
      (Ok (filter (λ version,
             satisfiesWithPrereleases E (Some version) (desc_range descriptor)
               = true) <$> listings),
       logs ((λ spec, FetchAvailableVersions
                        (getRegistryFromPackageManagerSpec E spec))
               <$> omap (λ key, Engine.ranges_get definition (Some key)) keys)
            w).
Proof.
  induction keys as [| key keys IH]; intros listings w Hkeys Hall.
  - simpl in *. apply Forall2_nil_inv_l in Hall as ->. simpl.
    by rewrite logs_nil.
  - destruct (Hkeys key) as [spec Hspec]; [by left |].
    cbn -[Engine.ranges_get] in Hall. rewrite Hspec in Hall.
    apply Forall2_cons_inv_l in Hall
      as (versions & listings' & Hfetch & Hall & ->).
    cbn -[Engine.ranges_get Engine.fetchRange].
    rewrite (fetchRange_run E definition descriptor key spec versions w)
      by done.
    rewrite (IH listings'); [| intros k Hk; apply Hkeys; by right | done].
    rewrite Hspec. by rewrite logs_log.
Qed.

Lemma elem_of_concat {A} (x : A) (ls : list (list A)) :
  x ∈ concat ls ↔ ∃ l, x ∈ l ∧ l ∈ ls.
Proof.
  induction ls as [| l ls IH]; simpl.
  - split; [by intros H%elem_of_nil |]. by intros (l & _ & H%elem_of_nil).
  - rewrite elem_of_app, IH. split.
    + intros [H | (l' & H & Hin)]; [exists l | exists l'];
        (split; [done |]); [by left | by right].
    + intros (l' & H & [-> | Hin]%elem_of_cons); [by left |].
      right. by exists l'.
Qed.

Lemma elem_of_union (sat : string → bool) (listings : list (list string))
    (v : string) :
  v ∈ uniq (concat (filter (λ x, sat x = true) <$> listings)) ↔
  ∃ versions, versions ∈ listings ∧ v ∈ versions ∧ sat v = true.
Proof.
  rewrite elem_of_uniq, elem_of_concat. split.
  - intros (l & Hv & Hl). apply list_elem_of_fmap in Hl as (versions & -> & Hin).
    apply list_elem_of_filter in Hv as [Hsat Hv]. by exists versions.
  - intros (versions & Hin & Hv & Hsat).
    exists (filter (λ x, sat x = true) versions). split.
    + by apply list_elem_of_filter.
    + apply list_elem_of_fmap. by exists versions.
Qed.

(** The listings of a working descriptor that is not an exact version and
    was not found in the cache. *)
Lemma resolveFinal_range (E : Env) (definition : PackageManagerDefinition)
    (working : Descriptor) (useCache : bool) (w : World)
    (cached : option string) (listings : list (list string)) :
  truthy (semverValid E (desc_range working)) = false →
  findInstalledVersion E working = Ok cached →
  cached = None ∨ useCache = false →
  Forall2 (λ spec versions,
      fetchAvailableVersions E (getRegistryFromPackageManagerSpec E spec)
        = Ok versions)
    (declared_specs definition) listings →
  Engine.resolveFinal E definition working useCache w =
    (Ok match sort (semverRcompare E)
                (uniq (concat (filter (λ v,
                   satisfiesWithPrereleases E (Some v) (desc_range working)
                     = true) <$> listings))) with
        | [] => None
        | highest :: _ =>
            Some {| loc_name := desc_name working;
                    loc_reference := Some highest |}
        end,
     logs (FindInstalledVersion working ::
           ((λ spec, FetchAvailableVersions
                       (getRegistryFromPackageManagerSpec E spec))
              <$> declared_specs definition)) w).
Proof.
  intros Hv Hcache Hmiss Hall. unfold Engine.resolveFinal.
  unfold mbind at 1, M_bind at 1, call at 1. rewrite Hcache.
  assert (bool_decide (cached ≠ None) && useCache = false) as ->.
  { destruct Hmiss as [-> | ->]; [done | by rewrite andb_false_r]. }
  rewrite Hv. unfold mbind, M_bind.
  rewrite (promise_all_fetch E definition working _ listings)
    by (by apply ranges_get_key || done).
  fold (declared_specs definition). rewrite logs_log.
  by destruct (sort _ _).
Qed.

(** C1. A working descriptor of a supported tool whose range is a valid
    range and not an exact version, with no version from the install cache
    (none installed, or the cache not in use), all listings answering: the
    install cache is asked, then the listing of every declared range key is
    fetched, in the order of the keys. The candidates are the versions of
    any of the listings that satisfy the range, prereleases included, each
    once. With no candidate the resolution is [null]; otherwise it is a
    candidate that no candidate precedes in the order of [semverRcompare],
    the highest version, the comparator ordering the candidates. This is the
    resolution of the descriptor itself, and of a tag whose lookup gave this
    working descriptor. *)
Theorem resolveDescriptor_range (E : Env) (working : Descriptor)
    (definition : PackageManagerDefinition) (useCache : bool)
    (w : World) (cached : option string) (listings : list (list string)) :
  definitions (config E) !! desc_name working = Some definition →
  truthy (semverValid E (desc_range working)) = false →
  truthy (semverValidRange E (desc_range working)) = true →
  findInstalledVersion E working = Ok cached →
  cached = None ∨ useCache = false →
  Forall2 (λ spec versions,
      fetchAvailableVersions E (getRegistryFromPackageManagerSpec E spec)
        = Ok versions)
    (declared_specs definition) listings →
  let satisfying version :=
    satisfiesWithPrereleases E (Some version) (desc_range working) in
  let candidates :=
    uniq (concat (filter (λ v, satisfying v = true) <$> listings)) in
  total_on (semverRcompare E) candidates →
  transitive_on (semverRcompare E) candidates →
  let w' :=
    logs (FindInstalledVersion working ::
          ((λ spec, FetchAvailableVersions
                      (getRegistryFromPackageManagerSpec E spec))
             <$> declared_specs definition)) w in
  ∃ resolved,
    (isSupportedPackageManagerDescriptor E working = true →
     ∀ allowTags,
       Engine.resolveDescriptor E working allowTags useCache w
         = (Ok resolved, w')) ∧
    (∀ tag w0,
       isSupportedPackageManagerDescriptor E tag = true →
       desc_name tag = desc_name working →
       truthy (semverValid E (desc_range tag)) = false →
       truthy (semverValidRange E (desc_range tag)) = false →
       Engine.resolveTag E definition tag true w0 = (Ok working, w) →
       Engine.resolveDescriptor E tag true useCache w0 = (Ok resolved, w')) ∧
    (∀ v, v ∈ candidates ↔
          ∃ versions, versions ∈ listings ∧ v ∈ versions ∧
                      satisfying v = true) ∧
    NoDup candidates ∧
    (candidates = [] → resolved = None) ∧
    (candidates ≠ [] →
       ∃ highest,
         resolved = Some {| loc_name := desc_name working;
                            loc_reference := Some highest |} ∧
         highest ∈ candidates ∧
         ∀ v, v ∈ candidates → (semverRcompare E highest v <= 0)%Z).
Proof.
  intros Hd Hv Hr Hcache Hmiss Hall satisfying candidates Htot Htr w'.
  pose proof (resolveFinal_range E definition working useCache w cached
                listings Hv Hcache Hmiss Hall) as Hfinal.
  fold satisfying candidates w' in Hfinal.
  change (uniq _) with candidates in Hfinal.
  assert (Hmem : ∀ v, v ∈ candidates ↔
            ∃ versions, versions ∈ listings ∧ v ∈ versions ∧
                        satisfying v = true)
    by (intros v; apply (elem_of_union satisfying)).
  assert (Hnodup : NoDup candidates) by apply NoDup_uniq.
  eexists. split; [| split; [| split; [| split; [| split]]]].
  - intros Hs allowTags.
    rewrite (resolveDescriptor_no_tag E working definition) by auto.
    exact Hfinal.
  - intros tag w0 Hs Hname Htv Htr' Htag.
    rewrite (resolveDescriptor_through_tag E tag definition)
      by (done || by rewrite Hname).
    rewrite (bind_ok _ _ _ _ _ Htag). exact Hfinal.
  - done.
  - done.
  - intros Hnil. by rewrite (proj2 (sort_nil _ _) Hnil).
  - intros Hne.
    destruct (sort (semverRcompare E) candidates) as [| highest rest] eqn:Hsort.
    { by apply sort_nil in Hsort. }
    exists highest. split; [done |]. split.
    + apply (elem_of_sort (semverRcompare E)). rewrite Hsort. left.
    + by apply (sort_head_first _ candidates highest rest).
Qed.

(** On the example of the specification: range keys [1.x] and [>=2.0.0],
    the first listing 1.21.0 and 1.22.19, the second 2.0.0, nothing
    installed: the range [^1.0.0] resolves to 1.22.19. *)
Lemma resolveDescriptor_range_witness :
  Engine.resolveDescriptor Demo.plain Demo.yarnCaret false true Demo.absent
    = (Ok (Some {| loc_name := "yarn"; loc_reference := Some "1.22.19" |}),
       logs [FindInstalledVersion Demo.yarnCaret;
             FetchAvailableVersions Demo.legacy;
             FetchAvailableVersions Demo.berry] Demo.absent).
Proof.
  assert (Hcandidates :
    uniq (concat (filter (λ v,
        satisfiesWithPrereleases Demo.plain (Some v)
          (desc_range Demo.yarnCaret) = true)
      <$> [["1.21.0"; "1.22.19"]; ["2.0.0"]])) = ["1.21.0"; "1.22.19"])
    by (vm_compute; reflexivity).
  destruct (resolveDescriptor_range Demo.plain Demo.yarnCaret Demo.yarn
              true Demo.absent None [["1.21.0"; "1.22.19"]; ["2.0.0"]])
    as (resolved & Hrun & _ & _ & _ & _ & Hhighest).
  - reflexivity.
  - reflexivity.
  - reflexivity.
  - reflexivity.
  - by left.
  - repeat constructor.
  - rewrite Hcandidates. intros a b Ha Hb.
    each_member Ha; each_member Hb; vm_compute; intuition congruence.
  - rewrite Hcandidates. intros a b c Ha Hb Hc.
    each_member Ha; each_member Hb; each_member Hc; vm_compute;
      intuition congruence.
  - rewrite (Hrun eq_refl false). f_equal. rewrite Hcandidates in Hhighest.
    destruct Hhighest as (highest & -> & Hin & Hle); [discriminate |].
    each_member Hin; [| reflexivity].
    specialize (Hle "1.22.19" ltac:(right; left)).
    vm_compute in Hle. by destruct Hle.
Defined.

(** ** The dispatcher *)





(** ** The model on small inputs *)

(** With range keys that are all different, the declared specs are the specs
    of the definition, in their order. *)
Lemma declared_specs_ranges (definition : PackageManagerDefinition) :
  NoDup (Engine.range_keys definition) →
  declared_specs definition = (def_ranges definition).*2.
Proof.
  unfold declared_specs, Engine.range_keys, Engine.ranges_get.
  induction (def_ranges definition) as [| [k spec] l IH]; [done |].
  intros Hnd. apply NoDup_cons in Hnd as [Hk Hnd].
  cbn [fmap list_fmap omap list_omap fst snd mbind option_bind find].
  rewrite bool_decide_eq_true_2 by done. cbn [fmap option_fmap option_map snd].
  f_equal. rewrite <- (IH Hnd). apply list_omap_ext.
  apply Forall2_same_length_lookup_2; [done |].
  intros i key key' Hi Hi'. assert (key' = key) as -> by congruence.
  assert (k ≠ key).
  { intros ->. apply Hk. by eapply list_elem_of_lookup_2. }
  cbn [find fst]. by rewrite bool_decide_eq_false_2.
Qed.

Example transparent_match :
  Engine.matchesTransparentPath "npm" ["exec"; "foo"] ["npm"; "exec"] = true ∧
  Engine.matchesTransparentPath "npm" ["run"; "foo"] ["npm"; "exec"] = false.
Proof. split; reflexivity. Qed.

Example known_tool_request :
  (Engine.executePackageManagerRequest Demo.plain
     {| packageManager := Some "yarn"; binaryName := "yarn";
        binaryVersion := Some "^1.0.0" |}
     "/home/user" ["install"] Demo.absent).1 = Ok tt.
Proof. vm_compute. reflexivity. Qed.

Example strip_hash_line_separator :
  let separator :=
    String (ascii_of_nat 226)
      (String (ascii_of_nat 128) (String (ascii_of_nat 168) EmptyString)) in
  strip_hash ("1.22.19+sha1.abc" +:+ separator +:+ "rest")
    = "1.22.19" +:+ separator +:+ "rest" ∧
  single_line ("1.22.19" +:+ separator) = false.
Proof. split; reflexivity. Qed.

Example strip_hash_reference :
  strip_hash "1.22.19+sha1.abc" = "1.22.19" ∧ strip_hash "1.22.19" = "1.22.19".
Proof. split; reflexivity. Qed.

Example uniq_first_occurrences :
  uniq ["2.0.0"; "1.0.0"; "2.0.0"; "1.0.0"; "3.0.0"]
    = ["2.0.0"; "1.0.0"; "3.0.0"].
Proof. reflexivity. Qed.

Example npm_listing_deduplicated :
  Engine.resolveDescriptor Demo.plain
      {| desc_name := "npm"; desc_range := ">=10.0.0" |} false true Demo.absent
    = (Ok (Some {| loc_name := "npm"; loc_reference := Some "10.8.2" |}),
       logs [FindInstalledVersion
               {| desc_name := "npm"; desc_range := ">=10.0.0" |};
             FetchAvailableVersions Demo.npmjs] Demo.absent).
Proof. vm_compute. reflexivity. Qed.

(** * Further properties of the engine *)

(** ** What makes no call on the Last-Known-Good file *)

Lemma store_free_ret {A} (a : A) : store_free (mret a : M A).
Proof. intros w. exists []. by rewrite app_nil_r. Qed.

Lemma store_free_throw {A} (e : exn) : store_free (throw e : M A).
Proof. intros w. exists []. by rewrite app_nil_r. Qed.

Lemma store_free_lift {A} (r : result A) : store_free (lift r).
Proof. intros w. exists []. by rewrite app_nil_r. Qed.

Lemma store_free_call {A} (e : event) (answer : result A) :
  touches_store e = false → store_free (call e answer).
Proof. intros He w. exists [e]. split; [done |]. by constructor. Qed.

Lemma store_free_bind {A B} (m : M A) (k : A → M B) :
  store_free m → (∀ a, store_free (k a)) → store_free (m ≫= k).
Proof.
  intros Hm Hk w. destruct (Hm w) as (es & Htrace & Hes).
  unfold mbind, M_bind. destruct (m w) as [[a | e] w1]; simpl in *.
  - destruct (Hk a w1) as (es' & Htrace' & Hes').
    exists (es ++ es'). split.
    + by rewrite Htrace', Htrace, app_assoc.
    + by apply Forall_app.
  - by exists es.
Qed.

Lemma store_free_promise_all {A} (promises : list (M A)) :
  Forall store_free promises → store_free (promise_all promises).
Proof.
  induction 1 as [| p rest Hp _ IH]; intros w; simpl.
  - exists []. by rewrite app_nil_r.
  - destruct (Hp w) as (es & Htrace & Hes).
    destruct (p w) as [r w1]; simpl in *.
    destruct (IH w1) as (es' & Htrace' & Hes').
    destruct (promise_all rest w1) as [rs w2]; simpl in *.
    exists (es ++ es'). split.
    + by rewrite Htrace', Htrace, app_assoc.
    + by apply Forall_app.
Qed.

Lemma store_free_fetchRange (E : Env) (definition : PackageManagerDefinition)
    (finalDescriptor : Descriptor) (range : string) :
  store_free (Engine.fetchRange E definition finalDescriptor range).
Proof.
  unfold Engine.fetchRange. apply store_free_bind; [apply store_free_lift |].
  intros registry. apply store_free_bind; [by apply store_free_call |].
  intros versions. apply store_free_ret.
Qed.

Lemma store_free_resolveTag (E : Env) (definition : PackageManagerDefinition)
    (descriptor : Descriptor) (allowTags : bool) :
  store_free (Engine.resolveTag E definition descriptor allowTags).
Proof.
  unfold Engine.resolveTag. destruct (negb allowTags);
    [apply store_free_throw |].
  apply store_free_bind; [apply store_free_lift |].
  intros registry. apply store_free_bind; [by apply store_free_call |].
  intros tags. destruct (tags !! desc_range descriptor);
    [apply store_free_ret | apply store_free_throw].
Qed.

Lemma store_free_resolveFinal (E : Env) (definition : PackageManagerDefinition)
    (finalDescriptor : Descriptor) (useCache : bool) :
  store_free (Engine.resolveFinal E definition finalDescriptor useCache).
Proof.
  unfold Engine.resolveFinal.
  apply store_free_bind; [by apply store_free_call |].
  intros cachedVersion.
  destruct (bool_decide (cachedVersion ≠ None) && useCache);
    [apply store_free_ret |].
  destruct (truthy _); [apply store_free_ret |].
  apply store_free_bind.
  - apply store_free_promise_all. apply Forall_fmap, Forall_forall.
    intros range _. apply store_free_fetchRange.
  - intros versions. destruct (sort _ _); apply store_free_ret.
Qed.

Lemma store_free_resolveDescriptor (E : Env) (descriptor : Descriptor)
    (allowTags useCache : bool) :
  store_free (Engine.resolveDescriptor E descriptor allowTags useCache).
Proof.
  unfold Engine.resolveDescriptor.
  destruct (negb (isSupportedPackageManagerDescriptor E descriptor)).
  { destruct (_ && _); [apply store_free_throw | apply store_free_ret]. }
  destruct (definitions (config E) !! desc_name descriptor) as [definition |];
    [| apply store_free_throw].
  apply store_free_bind.
  - destruct (_ && _); [apply store_free_resolveTag | apply store_free_ret].
  - intros finalDescriptor. apply store_free_resolveFinal.
Qed.

Lemma store_free_ensurePackageManager (E : Env) (locator : Locator) :
  store_free (Engine.ensurePackageManager E locator).
Proof.
  unfold Engine.ensurePackageManager.
  apply store_free_bind; [apply store_free_lift |].
  intros spec. apply store_free_bind; [by apply store_free_call |].
  intros info. destruct (loc_reference locator);
    [apply store_free_ret | apply store_free_throw].
Qed.

Lemma store_free_findProjectSpec (E : Env) (cwd : string) (locator : Locator)
    (transparent : bool) :
  store_free (Engine.findProjectSpec E cwd locator transparent).
Proof.
  unfold Engine.findProjectSpec.
  destruct (env_is E "COREPACK_ENABLE_PROJECT_SPEC" "0");
    [apply store_free_ret |].
  apply store_free_bind; [by apply store_free_call |].
  intros [target | target | target spec].
  - apply store_free_ret.
  - apply store_free_bind; [| intros; apply store_free_ret].
    destruct (negb _); [| apply store_free_ret].
    unfold Engine.autoPin.
    apply store_free_bind; [apply store_free_resolveDescriptor |].
    intros [resolved |]; [| apply store_free_throw].
    apply store_free_bind; [apply store_free_ensurePackageManager |].
    intros installSpec. by apply store_free_call.
  - destruct (negb _); [| apply store_free_ret].
    destruct (if env_is E "COREPACK_ENABLE_STRICT" "0" then true
              else transparent);
      [apply store_free_ret | apply store_free_throw].
Qed.


(** X1. Resolving a descriptor, preparing a locator and looking for the
    project's pin (auto-pin included) make no call of their own on the
    Last-Known-Good file: whatever their arguments and whatever the
    collaborators answer, and whether they end in a value or in an exception,
    the calls they make are calls to collaborators, none of them a read or a
    write of the file or the creation of its folder. What the collaborators
    do to the file themselves is not the engine's, and is not stated. *)
Theorem resolution_makes_no_store_call (E : Env) :
  (∀ descriptor allowTags useCache,
     store_free (Engine.resolveDescriptor E descriptor allowTags useCache)) ∧
  (∀ locator, store_free (Engine.ensurePackageManager E locator)) ∧
  (∀ cwd locator transparent,
     store_free (Engine.findProjectSpec E cwd locator transparent)).
Proof.
  split; [| split].
  - apply store_free_resolveDescriptor.
  - apply store_free_ensurePackageManager.
  - apply store_free_findProjectSpec.
Qed.



(** ** Names are kept *)

Lemma resolveTag_name (E : Env) (definition : PackageManagerDefinition)
    (descriptor finalDescriptor : Descriptor) (allowTags : bool)
    (w w' : World) :
  Engine.resolveTag E definition descriptor allowTags w
    = (Ok finalDescriptor, w') →
  desc_name finalDescriptor = desc_name descriptor.
Proof.
  unfold Engine.resolveTag. destruct (negb allowTags); [done |]. run.
  destruct (Engine.registryOf E _) as [registry | e]; [| done].
  destruct (fetchAvailableTags E registry) as [tags | e]; [| done].
  destruct (tags !! desc_range descriptor); [| done].
  by intros [= <- <-].
Qed.

Lemma resolveFinal_name (E : Env) (definition : PackageManagerDefinition)
    (finalDescriptor : Descriptor) (useCache : bool) (w w' : World)
    (locator : Locator) :
  Engine.resolveFinal E definition finalDescriptor useCache w
    = (Ok (Some locator), w') →
  loc_name locator = desc_name finalDescriptor ∧
  is_Some (loc_reference locator).
Proof.
  unfold Engine.resolveFinal. run.
  destruct (findInstalledVersion E finalDescriptor) as [cached | e]; [| done].
  destruct (bool_decide (cached ≠ None) && useCache) eqn:Hhit.
  { intros [= <- <-]. simpl. split; [done |].
    apply andb_true_iff in Hhit as [Hsome%bool_decide_eq_true _].
    by destruct cached. }
  destruct (truthy _).
  { intros [= <- <-]. simpl. by eauto. }
  destruct (promise_all _ _) as [[versions | e] w1]; [| done].
  destruct (sort _ _) as [| highest rest]; [done |].
  intros [= <- <-]. simpl. by eauto.
Qed.

Lemma resolveDescriptor_name (E : Env) (descriptor : Descriptor)
    (allowTags useCache : bool) (w w' : World) (locator : Locator) :
  Engine.resolveDescriptor E descriptor allowTags useCache w
    = (Ok (Some locator), w') →
  loc_name locator = desc_name descriptor ∧
  is_Some (loc_reference locator).
Proof.
  unfold Engine.resolveDescriptor.
  destruct (negb (isSupportedPackageManagerDescriptor E descriptor)).
  { destruct (_ && _); [done |]. intros [= <- <-]. simpl. by eauto. }
  destruct (definitions (config E) !! desc_name descriptor) as [definition |];
    [| done].
  unfold mbind, M_bind.
  destruct (_ && _).
  - destruct (Engine.resolveTag E definition descriptor allowTags w)
      as [[finalDescriptor | e] w1] eqn:Htag; [| done].
    intros Hfinal. apply resolveFinal_name in Hfinal as [Hname Href].
    split; [| done]. rewrite Hname. by eapply resolveTag_name.
  - unfold mret, M_ret. by apply resolveFinal_name.
Qed.

(** X3. Whatever the path of the resolution (custom tool, tag, install
    cache, exact version, listings), a locator that [resolveDescriptor]
    returns has the name of the descriptor and a reference that is defined.
    And [null] is only the answer for a descriptor of a supported package
    manager that has a definition: a custom tool never resolves to [null]. *)
Theorem resolveDescriptor_keeps_name (E : Env) (descriptor : Descriptor)
    (allowTags useCache : bool) (w w' : World) :
  (∀ locator,
     Engine.resolveDescriptor E descriptor allowTags useCache w
       = (Ok (Some locator), w') →
     loc_name locator = desc_name descriptor ∧
     is_Some (loc_reference locator)) ∧
  (Engine.resolveDescriptor E descriptor allowTags useCache w
     = (Ok None, w') →
   isSupportedPackageManagerDescriptor E descriptor = true ∧
   is_Some (definitions (config E) !! desc_name descriptor)).
Proof.
  split; [intros locator; apply resolveDescriptor_name |].
  unfold Engine.resolveDescriptor.
  destruct (isSupportedPackageManagerDescriptor E descriptor); simpl.
  - destruct (definitions (config E) !! desc_name descriptor); [| done].
    intros _. split; [done | by eexists].
  - by destruct (_ && _).
Qed.

(** On the example: the tag [latest] of yarn. *)
Lemma resolveDescriptor_keeps_name_witness :
  loc_name {| loc_name := "yarn"; loc_reference := Some "2.0.0" |}
    = desc_name Demo.yarnLatest ∧
  is_Some (loc_reference
             {| loc_name := "yarn"; loc_reference := Some "2.0.0" |}).
Proof.
  apply (proj1 (resolveDescriptor_keeps_name Demo.plain Demo.yarnLatest
                  true true Demo.absent
                  (logs [FetchAvailableTags Demo.berry;
                         FindInstalledVersion
                           {| desc_name := "yarn"; desc_range := "2.0.0" |}]
                        Demo.absent))).
  vm_compute. reflexivity.
Defined.

Lemma findProjectSpec_outcome (E : Env) (cwd : string) (locator : Locator)
    (transparent : bool) (w w' : World) (descriptor : Descriptor) :
  Engine.findProjectSpec E cwd locator transparent w = (Ok descriptor, w') →
  descriptor = {| desc_name := loc_name locator;
                  desc_range := tpl (loc_reference locator) |} ∨
  (∃ target, loadSpec E cwd = Ok (Found target descriptor) ∧
             desc_name descriptor = loc_name locator).
Proof.
  unfold Engine.findProjectSpec.
  destruct (env_is E "COREPACK_ENABLE_PROJECT_SPEC" "0").
  { intros [= <- <-]. by left. }
  run. destruct (loadSpec E cwd) as [[target | target | target spec] | e];
    [| | | done].
  - intros [= <- <-]. by left.
  - destruct (negb (env_is E "COREPACK_ENABLE_AUTO_PIN" "0")).
    + destruct (Engine.autoPin _ _ _ _) as [[[] | e] w1]; [| done].
      intros [= <- <-]. by left.
    + intros [= <- <-]. by left.
  - destruct (String.eqb_spec (desc_name spec) (loc_name locator))
      as [Heq | Hne]; simpl.
    + intros [= <- <-]. right. by exists target.
    + destruct (if env_is E "COREPACK_ENABLE_STRICT" "0" then true
                else transparent); [| done].
      intros [= <- <-]. by left.
Qed.

Lemma requestDescriptor_name (E : Env) (request : PackageManagerRequest)
    (cwd : string) (args : list string) (w w' : World)
    (descriptor : Descriptor) :
  Engine.requestDescriptor E request cwd args w = (Ok descriptor, w') →
  desc_name descriptor =
    default (binaryName request) (packageManager request).
Proof.
  unfold Engine.requestDescriptor. run.
  destruct (Engine.fallbackFor E request args w) as [[[l t] | e] w1] eqn:Hf;
    [| done].
  destruct (Engine.findProjectSpec E cwd l t w1) as [[d | e] w2] eqn:Hp;
    [| done].
  intros [= <- <-].
  apply findProjectSpec_outcome in Hp.
  assert (Hd : desc_name d = loc_name l)
    by (by destruct Hp as [-> | (? & ? & ?)]).
  assert (Hl : loc_name l
               = default (binaryName request) (packageManager request)).
  { revert Hf. unfold Engine.fallbackFor.
    destruct (packageManager request) as [pm |]; cbn [default].
    - unfold mbind, M_bind.
      destruct (if_truthy (A := M string) (binaryVersion request) _ _ w)
        as [[v | e] w0]; [| done].
      destruct (definitions (config E) !! pm); [| done].
      by intros [= <- <- <-].
    - by intros [= <- <- <-]. }
  unfold if_truthy. destruct (binaryVersion request) as [v |]; [| congruence].
  destruct (String.eqb v EmptyString); simpl; congruence.
Qed.

(** X4. The descriptor that [findProjectSpec] returns is either the fallback
    descriptor or the pin of the project, and in both cases it is for the
    tool of the fallback locator: a pin for another tool is never returned.
    So the descriptor that a request for a package manager hands to the
    resolution is for that package manager. *)
Theorem findProjectSpec_keeps_name (E : Env) :
  (∀ cwd locator transparent w w' descriptor,
     Engine.findProjectSpec E cwd locator transparent w = (Ok descriptor, w') →
     desc_name descriptor = loc_name locator ∧
     (descriptor = {| desc_name := loc_name locator;
                      desc_range := tpl (loc_reference locator) |} ∨
      ∃ target, loadSpec E cwd = Ok (Found target descriptor))) ∧
  (∀ request cwd args w w' descriptor,
     Engine.requestDescriptor E request cwd args w = (Ok descriptor, w') →
     desc_name descriptor =
       default (binaryName request) (packageManager request)).
Proof.
  split.
  - intros cwd locator transparent w w' descriptor Hrun.
    apply findProjectSpec_outcome in Hrun as [-> | (target & Hload & Hname)].
    + split; [done | by left].
    + split; [done |]. right. by exists target.
  - intros request cwd args w w' descriptor.
    apply requestDescriptor_name.
Qed.

(** On the example: yarn requested in a project that pins yarn 4.0.0. *)
Lemma findProjectSpec_keeps_name_witness :
  desc_name Demo.yarn4 = loc_name Demo.yarnClassic ∧
  (Demo.yarn4 = {| desc_name := loc_name Demo.yarnClassic;
                   desc_range := tpl (loc_reference Demo.yarnClassic) |} ∨
   ∃ target,
     loadSpec (Demo.pinned Demo.yarn4) "/home/user/project"
       = Ok (Found target Demo.yarn4)).
Proof.
  apply (proj1 (findProjectSpec_keeps_name (Demo.pinned Demo.yarn4))
           "/home/user/project" Demo.yarnClassic false Demo.absent
           (log (LoadSpec "/home/user/project") Demo.absent)).
  reflexivity.
Defined.

(** ** Transparent commands *)

Lemma imap_pair_prefix (args rest : list string) (n : nat) :
  forallb (λ p, bool_decide (args !! p.1 = Some p.2))
          (imap (λ i x, (n + i, x)) rest) = true ↔
  rest `prefix_of` drop n args.
Proof.
  revert n. induction rest as [| x rest IH]; intros n.
  - split; [intros _; apply prefix_nil | done].
  - cbn [imap forallb fst snd]. rewrite Nat.add_0_r.
    rewrite andb_true_iff, bool_decide_eq_true.
    rewrite (imap_ext _ (λ i y, (S n + i, y)))
      by (intros; simpl; f_equal; lia).
    rewrite (IH (S n)). split.
    + intros [Hn Hrest]. rewrite (drop_S _ _ _ Hn).
      by apply prefix_cons.
    + intros [k Hk]. simpl in Hk.
      assert (Hn : args !! n = Some x).
      { rewrite <- (Nat.add_0_r n), <- lookup_drop, Hk. done. }
      split; [done |]. rewrite (drop_S _ _ _ Hn) in Hk.
      injection Hk as ->. by exists k.
Qed.

(** X5. A transparent path matches a command exactly when its first segment
    is the binary name and its other segments are the first arguments, in
    order: further arguments do not matter, too few arguments do not match,
    and an empty path matches nothing. *)
Theorem matchesTransparentPath_prefix (binaryName : string)
    (args transparentPath : list string) :
  Engine.matchesTransparentPath binaryName args transparentPath = true ↔
  ∃ segments, transparentPath = binaryName :: segments ∧
              segments `prefix_of` args.
Proof.
  unfold Engine.matchesTransparentPath.
  rewrite andb_true_iff, bool_decide_eq_true.
  rewrite (imap_ext _ (λ i y, (0 + i, y))) by done.
  rewrite imap_pair_prefix. simpl. split.
  - intros [Hhead Hprefix]. destruct transparentPath as [| b segments];
      [done |]. injection Hhead as ->. by exists segments.
  - intros (segments & -> & Hprefix). by split.
Qed.

(** ** Binaries *)

Lemma binsOfAll_ok (specs : list PackageManagerSpec)
    (all : list (list string)) :
  Engine.binsOfAll specs = Ok all →
  Forall2 (λ spec bins, Engine.binsOf spec = Ok bins) specs all.
Proof.
  revert all. induction specs as [| spec specs IH]; intros all; simpl.
  - intros [= <-]. constructor.
  - destruct (Engine.binsOf spec) as [bins | e] eqn:Hb; [| done].
    destruct (Engine.binsOfAll specs) as [others | e]; [| done].
    intros [= <-]. constructor; [done | by apply IH].
Qed.

Lemma binsOfAll_total (specs : list PackageManagerSpec) :
  (∀ spec, spec ∈ specs → ∃ bins, Engine.binsOf spec = Ok bins) →
  ∃ all, Engine.binsOfAll specs = Ok all.
Proof.
  induction specs as [| spec specs IH]; intros H; simpl; [by eexists |].
  destruct (H spec) as [bins ->]; [by left |].
  destruct IH as [others ->]; [intros s Hs; apply H; by right |].
  by eexists.
Qed.

Lemma someRangeHasBin_true (binaryName : string)
    (specs : list PackageManagerSpec) :
  Engine.someRangeHasBin binaryName specs = Ok true →
  ∃ spec bins, spec ∈ specs ∧ Engine.binsOf spec = Ok bins ∧
               binaryName ∈ bins.
Proof.
  induction specs as [| spec specs IH]; simpl; [done |].
  destruct (Engine.binsOf spec) as [bins | e] eqn:Hb; [| done].
  case_bool_decide as Hin.
  - intros _. exists spec, bins. split; [by left | done].
  - intros (s & b & Hs & Hbs & Hbin)%IH. exists s, b. split; [by right | done].
Qed.

Lemma someRangeHasBin_false (binaryName : string)
    (specs : list PackageManagerSpec) :
  Engine.someRangeHasBin binaryName specs = Ok false →
  ∀ spec, spec ∈ specs →
    ∃ bins, Engine.binsOf spec = Ok bins ∧ binaryName ∉ bins.
Proof.
  induction specs as [| spec specs IH]; simpl.
  - intros _ spec Hs. by apply elem_of_nil in Hs.
  - destruct (Engine.binsOf spec) as [bins | e] eqn:Hb; [| done].
    case_bool_decide as Hin; [done |].
    intros Hrest s [-> | Hs]%elem_of_cons; [by exists bins | by apply IH].
Qed.

Lemma someRangeHasBin_total (binaryName : string)
    (specs : list PackageManagerSpec) :
  (∀ spec, spec ∈ specs → ∃ bins, Engine.binsOf spec = Ok bins) →
  ∃ found, Engine.someRangeHasBin binaryName specs = Ok found.
Proof.
  induction specs as [| spec specs IH]; intros H; simpl; [by eexists |].
  destruct (H spec) as [bins ->]; [by left |].
  case_bool_decide; [by eexists |].
  apply IH. intros s Hs. apply H. by right.
Qed.

Lemma getBinariesFor_elem (E : Env) (name : string)
    (definition : PackageManagerDefinition) (binaries : list string)
    (binaryName : string) :
  definitions (config E) !! name = Some definition →
  Engine.getBinariesFor E name = Ok binaries →
  binaryName ∈ binaries ↔
  ∃ spec bins, spec ∈ (def_ranges definition).*2 ∧
               Engine.binsOf spec = Ok bins ∧ binaryName ∈ bins.
Proof.
  intros Hd. unfold Engine.getBinariesFor. rewrite Hd.
  destruct (Engine.binsOfAll _) as [all | e] eqn:Hall; [| done].
  intros [= <-]. apply binsOfAll_ok in Hall.
  rewrite elem_of_uniq, elem_of_concat. split.
  - intros (bins & Hin & Hbins).
    apply list_elem_of_lookup in Hbins as [i Hi].
    destruct (Forall2_lookup_r _ _ _ _ _ Hall Hi) as (spec & Hspec & Hb).
    exists spec, bins. split; [by eapply list_elem_of_lookup_2 | done].
  - intros (spec & bins & Hspec & Hb & Hin).
    apply list_elem_of_lookup in Hspec as [i Hi].
    destruct (Forall2_lookup_l _ _ _ _ _ Hall Hi) as (bins' & Hbins & Hb').
    assert (bins' = bins) as -> by congruence.
    exists bins. split; [done | by eapply list_elem_of_lookup_2].
Qed.

(** X6. The binaries of a package manager: when [getBinariesFor] answers,
    its answer has no duplicate, and a name is in it exactly when it is a bin
    (an element of the array, or a key of the object) of one of the ranges
    of the definition. It fails when the package manager has no definition,
    and only then or when a range has no bin. *)
Theorem getBinariesFor_spec (E : Env) (name : string) :
  (∀ binaries, Engine.getBinariesFor E name = Ok binaries →
     NoDup binaries ∧
     ∃ definition, definitions (config E) !! name = Some definition ∧
       ∀ binaryName, binaryName ∈ binaries ↔
         ∃ spec bins, spec ∈ (def_ranges definition).*2 ∧
                      Engine.binsOf spec = Ok bins ∧ binaryName ∈ bins) ∧
  (definitions (config E) !! name = None →
     ∃ e, Engine.getBinariesFor E name = Throw e) ∧
  (∀ definition, definitions (config E) !! name = Some definition →
     (∀ spec, spec ∈ (def_ranges definition).*2 → is_Some (spec_bin spec)) →
     ∃ binaries, Engine.getBinariesFor E name = Ok binaries).
Proof.
  split; [| split].
  - intros binaries Hrun.
    destruct (definitions (config E) !! name) as [definition |] eqn:Hd.
    + split.
      * revert Hrun. unfold Engine.getBinariesFor. rewrite Hd.
        destruct (Engine.binsOfAll _); [| done].
        intros [= <-]. apply NoDup_uniq.
      * exists definition. split; [done |]. intros binaryName.
        by apply (getBinariesFor_elem E name).
    + revert Hrun. unfold Engine.getBinariesFor. by rewrite Hd.
  - intros Hd. unfold Engine.getBinariesFor. rewrite Hd. by eexists.
  - intros definition Hd Hbins. unfold Engine.getBinariesFor. rewrite Hd.
    destruct (binsOfAll_total (def_ranges definition).*2) as [all ->];
      [| by eexists].
    intros spec Hs. destruct (Hbins spec Hs) as [bin Hbin].
    unfold Engine.binsOf. rewrite Hbin. destruct bin; by eexists.
Qed.

(** On the example: the two ranges of yarn declare [yarn], and [yarn] and
    [yarnpkg]. *)
Lemma getBinariesFor_spec_witness :
  NoDup ["yarn"; "yarnpkg"] ∧
  ∃ definition,
    definitions (config Demo.plain) !! "yarn" = Some definition ∧
    ∀ binaryName, binaryName ∈ ["yarn"; "yarnpkg"] ↔
      ∃ spec bins, spec ∈ (def_ranges definition).*2 ∧
                   Engine.binsOf spec = Ok bins ∧
                   binaryName ∈ bins.
Proof.
  apply (proj1 (getBinariesFor_spec Demo.plain "yarn")). reflexivity.
Defined.

Lemma getBinariesFor_misses (E : Env) (name binaryName : string)
    (definition : PackageManagerDefinition) :
  definitions (config E) !! name = Some definition →
  Engine.someRangeHasBin binaryName (def_ranges definition).*2 = Ok false →
  ∃ binaries, Engine.getBinariesFor E name = Ok binaries ∧
              binaryName ∉ binaries.
Proof.
  intros Hd Hscan.
  pose proof (someRangeHasBin_false _ _ Hscan) as Hall.
  destruct (binsOfAll_total (def_ranges definition).*2) as [all Hbins].
  { intros spec Hs. destruct (Hall spec Hs) as (bins & Hb & _). by exists bins. }
  assert (Hrun : Engine.getBinariesFor E name = Ok (uniq (concat all))).
  { unfold Engine.getBinariesFor. by rewrite Hd, Hbins. }
  exists (uniq (concat all)). split; [done |].
  rewrite (getBinariesFor_elem E name definition _ binaryName Hd Hrun).
  intros (spec & bins & Hs & Hb & Hin).
  destruct (Hall spec Hs) as (bins' & Hb' & Hnot).
  assert (bins' = bins) as -> by congruence. done.
Qed.

(** X7. [getPackageManagerFor] and [getBinariesFor] agree. When
    [getPackageManagerFor] names a package manager, it is a supported one, the
    binary is among its binaries, and the binary is among the binaries of no
    supported package manager before it; when it answers [null], the binary
    is among the binaries of no supported package manager. It answers (and
    does not throw) as soon as every supported package manager has a
    definition whose ranges all have a bin. *)
Theorem getPackageManagerFor_getBinariesFor (E : Env)
    (SupportedPackageManagerSet : list string) (binaryName : string) :
  (∀ packageManager,
     Engine.getPackageManagerFor E SupportedPackageManagerSet binaryName
       = Ok (Some packageManager) →
     ∃ before after,
       SupportedPackageManagerSet = before ++ packageManager :: after ∧
       (∀ other, other ∈ before →
          ∃ binaries, Engine.getBinariesFor E other = Ok binaries ∧
                      binaryName ∉ binaries) ∧
       is_Some (definitions (config E) !! packageManager) ∧
       ∀ binaries, Engine.getBinariesFor E packageManager = Ok binaries →
                   binaryName ∈ binaries) ∧
  (Engine.getPackageManagerFor E SupportedPackageManagerSet binaryName
     = Ok None →
   ∀ other, other ∈ SupportedPackageManagerSet →
     ∃ binaries, Engine.getBinariesFor E other = Ok binaries ∧
                 binaryName ∉ binaries) ∧
  ((∀ name, name ∈ SupportedPackageManagerSet →
      ∃ binaries, Engine.getBinariesFor E name = Ok binaries) →
   ∃ answer,
     Engine.getPackageManagerFor E SupportedPackageManagerSet binaryName
       = Ok answer).
Proof.
  induction SupportedPackageManagerSet as [| name rest IH]; simpl.
  { split; [done |]. split; [| by eexists].
    intros _ other Hother. by apply elem_of_nil in Hother. }
  destruct IH as (IHsome & IHnone & IHtotal).
  destruct (definitions (config E) !! name) as [definition |] eqn:Hd.
  - destruct (Engine.someRangeHasBin binaryName (def_ranges definition).*2)
      as [[] | e] eqn:Hscan.
    + split; [| split; [done | by eexists]].
      intros pm [= <-]. exists [], rest. split; [done |].
      split; [intros other Hother; by apply elem_of_nil in Hother |].
      split; [by eexists |]. intros binaries Hrun.
      rewrite (getBinariesFor_elem E name definition _ binaryName Hd Hrun).
      destruct (someRangeHasBin_true _ _ Hscan) as (spec & bins & ?).
      by exists spec, bins.
    + pose proof (getBinariesFor_misses E name binaryName definition Hd Hscan)
        as Hmiss.
      split; [| split].
      * intros pm Hrun.
        destruct (IHsome pm Hrun) as (before & after & -> & Hbefore & Hrest).
        exists (name :: before), after. split; [done |].
        split; [| done].
        intros other [-> | Hother]%elem_of_cons; [done | by apply Hbefore].
      * intros Hrun other [-> | Hother]%elem_of_cons;
          [done | by apply IHnone].
      * intros Hall. apply IHtotal. intros n Hn. apply Hall. by right.
    + split; [done |]. split; [done |]. intros Hall.
      destruct (Hall name) as [binaries Hrun]; [by left |].
      exfalso. revert Hrun. unfold Engine.getBinariesFor. rewrite Hd.
      destruct (Engine.binsOfAll _) as [all | e'] eqn:Hbins; [| done].
      intros _. apply binsOfAll_ok in Hbins.
      destruct (someRangeHasBin_total binaryName (def_ranges definition).*2)
        as [found Hfound]; [| congruence].
      intros spec [i Hi]%list_elem_of_lookup.
      destruct (Forall2_lookup_l _ _ _ _ _ Hbins Hi) as (bins & _ & Hb).
      by exists bins.
  - split; [done |]. split; [done |]. intros Hall.
    destruct (Hall name) as [binaries Hrun]; [by left |].
    revert Hrun. unfold Engine.getBinariesFor. by rewrite Hd.
Qed.

(** On the example: [yarnpkg] is a binary of yarn and not of npm; [pnpx] is
    a binary of neither. *)
Lemma getPackageManagerFor_getBinariesFor_witness :
  (∃ before after,
     ["npm"; "yarn"] = before ++ "yarn" :: after ∧
     (∀ other, other ∈ before →
        ∃ binaries, Engine.getBinariesFor Demo.plain other = Ok binaries ∧
                    "yarnpkg" ∉ binaries) ∧
     is_Some (definitions (config Demo.plain) !! "yarn") ∧
     ∀ binaries, Engine.getBinariesFor Demo.plain "yarn" = Ok binaries →
                 "yarnpkg" ∈ binaries) ∧
  (∀ other, other ∈ ["npm"; "yarn"] →
     ∃ binaries, Engine.getBinariesFor Demo.plain other = Ok binaries ∧
                 "pnpx" ∉ binaries).
Proof.
  split.
  - apply (proj1 (getPackageManagerFor_getBinariesFor Demo.plain
                    ["npm"; "yarn"] "yarnpkg")). reflexivity.
  - apply (proj1 (proj2 (getPackageManagerFor_getBinariesFor Demo.plain
                           ["npm"; "yarn"] "pnpx"))). reflexivity.
Defined.

(** ** Default versions *)

Lemma getDefaultVersion_stored (E : Env) (packageManager : string)
    (definition : PackageManagerDefinition) (w : World) (raw v : string) :
  definitions (config E) !! packageManager = Some definition →
  lkg_file w = Ok raw →
  storeOfContent E raw !! packageManager = Some v →
  v ≠ EmptyString →
  Engine.getDefaultVersion E packageManager w
    = (Ok v, log ReadLastKnownGood w).
Proof.
  intros Hd Hfile Hv Hne. unfold Engine.getDefaultVersion. rewrite Hd.
  rewrite (bind_ok _ _ w (storeOfContent E raw) (log ReadLastKnownGood w))
    by (by rewrite getLastKnownGood_run, Hfile).
  rewrite getLastKnownGoodFromFileContent_lookup, Hv.
  by rewrite if_truthy_yes.
Qed.

Lemma getDefaultDescriptors_names (E : Env) (names : list string) :
  ∀ w descriptors w',
    Engine.getDefaultDescriptors E names w = (Ok descriptors, w') →
    desc_name <$> descriptors = names.
Proof.
  induction names as [| name rest IH]; intros w descriptors w'; simpl.
  - by intros [= <- <-].
  - run. destruct (Engine.getDefaultVersion E name w) as [[range | e] w1];
      [| done].
    destruct (Engine.getDefaultDescriptors E rest w1)
      as [[others | e] w2] eqn:Hrest; [| done].
    intros [= <- <-]. simpl. f_equal. by eapply IH.
Qed.

(** X8. The default descriptors. When [getDefaultDescriptors] answers, it
    gives one descriptor for every supported package manager, in the order of
    the set. When the Last-Known-Good file holds an entry that is not empty
    for each of them, these entries are the ranges, and all that happens is
    that the file is read once for every package manager: nothing is fetched
    and nothing is written. *)
Theorem getDefaultDescriptors_stored (E : Env)
    (SupportedPackageManagerSet : list string) (w : World) :
  (∀ descriptors w',
     Engine.getDefaultDescriptors E SupportedPackageManagerSet w
       = (Ok descriptors, w') →
     desc_name <$> descriptors = SupportedPackageManagerSet) ∧
  (∀ raw,
     lkg_file w = Ok raw →
     (∀ name, name ∈ SupportedPackageManagerSet →
        is_Some (definitions (config E) !! name) ∧
        ∃ v, storeOfContent E raw !! name = Some v ∧ v ≠ EmptyString) →
     Engine.getDefaultDescriptors E SupportedPackageManagerSet w
       = (Ok ((λ name,
                 {| desc_name := name;
                    desc_range :=
                      default EmptyString (storeOfContent E raw !! name) |})
                <$> SupportedPackageManagerSet),
          logs (replicate (length SupportedPackageManagerSet)
                  ReadLastKnownGood) w)).
Proof.
  split; [apply getDefaultDescriptors_names |].
  intros raw. revert w.
  induction SupportedPackageManagerSet as [| name rest IH];
    intros w Hfile Hall; simpl.
  - by rewrite logs_nil.
  - destruct (Hall name) as [[definition Hd] (v & Hv & Hne)]; [by left |].
    rewrite (bind_ok _ _ _ _ _
               (getDefaultVersion_stored E name definition w raw v
                  Hd Hfile Hv Hne)).
    rewrite (bind_ok _ _ _ _ _
               (IH (log ReadLastKnownGood w) Hfile
                   (λ n Hn, Hall n (list_elem_of_further _ _ _ Hn)))).
    rewrite Hv. simpl. by rewrite logs_log.
Qed.

(** On the example: the file holds npm 10.8.2 and yarn 1.22.19. *)
Lemma getDefaultDescriptors_stored_witness :
  Engine.getDefaultDescriptors Demo.plain ["npm"; "yarn"]
      (Demo.written (<["npm" := "10.8.2"]> (<["yarn" := "1.22.19"]> ∅)))
    = (Ok [{| desc_name := "npm"; desc_range := "10.8.2" |};
           {| desc_name := "yarn"; desc_range := "1.22.19" |}],
       logs [ReadLastKnownGood; ReadLastKnownGood]
         (Demo.written (<["npm" := "10.8.2"]> (<["yarn" := "1.22.19"]> ∅)))).
Proof.
  etrans.
  - apply (proj2 (getDefaultDescriptors_stored Demo.plain ["npm"; "yarn"]
                    (Demo.written
                       (<["npm" := "10.8.2"]> (<["yarn" := "1.22.19"]> ∅))))
             _ eq_refl).
    intros name Hname. each_member Hname.
    + split; [by eexists |]. exists "10.8.2". split; [by vm_compute | done].
    + split; [by eexists |]. exists "1.22.19". split; [by vm_compute | done].
  - vm_compute. reflexivity.
Defined.

Lemma createLastKnownGoodFile_inv (E : Env) (store : Store) (w w' : World) :
  let content := JSON_stringify E (json_of_store store) +:+ newline in
  createLastKnownGoodFile E store w = (Ok tt, w') →
  fs_mkdir E = Ok tt ∧
  fs_writeFile E content = Ok tt ∧
  w' = {| lkg_file := Ok content;
          trace := trace w ++ [MkdirHome; WriteLastKnownGood content] |}.
Proof.
  intros content Hrun. destruct (fs_mkdir E) as [[] | e] eqn:Hm.
  - destruct (fs_writeFile E content) as [[] | e] eqn:Hw.
    + rewrite createLastKnownGoodFile_ok in Hrun by done.
      by injection Hrun as <-.
    + revert Hrun. unfold createLastKnownGoodFile, writeLastKnownGoodFile.
      fold content. run. by rewrite Hm, Hw.
  - revert Hrun. unfold createLastKnownGoodFile. run. by rewrite Hm.
Qed.

Lemma getLastKnownGood_entry (E : Env) (w w0 : World) (store : Store)
    (name v : string) :
  getLastKnownGood E w = (Ok store, w0) →
  store !! name = Some v →
  w0 = log ReadLastKnownGood w ∧
  ∃ raw, lkg_file w = Ok raw ∧ storeOfContent E raw = store.
Proof.
  rewrite getLastKnownGood_run. intros [= Hstore <-] Hv. split; [done |].
  destruct (lkg_file w) as [raw | e].
  - injection Hstore as <-. by exists raw.
  - case_bool_decide; [| done]. injection Hstore as <-.
    by rewrite store_lookup_empty in Hv.
Qed.

(** X9. What was activated, or fetched as the latest, is the default
    afterwards, when the store is a plain object: the file is missing, or
    holds a JSON object. With [JSON.parse] giving back the value that
    [JSON.stringify] was given for the store with its new entry: after
    [Engine.activatePackageManager] succeeded for a package manager with a
    definition and a reference that is not empty, [getDefaultVersion] returns
    that reference and only reads the file; and after [getDefaultVersion]
    fetched the latest version and could record it, a second call returns it
    again without fetching. *)
Theorem activated_is_default (E : Env) (packageManager reference : string)
    (definition : PackageManagerDefinition) (w w0 : World) (store : Store) :
  let value := json_of_store (<[packageManager := reference]> store) in
  let content := JSON_stringify E value +:+ newline in
  definitions (config E) !! packageManager = Some definition →
  reference ≠ EmptyString →
  getLastKnownGood E w = (Ok store, w0) →
  store_length store = None →
  JSON_parse E content = Ok value →
  (∀ w1,
     Engine.activatePackageManager E
       {| loc_name := packageManager; loc_reference := Some reference |} w
       = (Ok tt, w1) →
     Engine.getDefaultVersion E packageManager w1
       = (Ok reference, log ReadLastKnownGood w1)) ∧
  (store !! packageManager = None ∨
   store !! packageManager = Some EmptyString →
   process_env E "COREPACK_DEFAULT_TO_LATEST" ≠ Some "0" →
   fetchLatestStableVersion E (def_fetchLatestFrom definition)
     = Ok reference →
   fs_mkdir E = Ok tt →
   fs_writeFile E content = Ok tt →
   ∃ w1,
     Engine.getDefaultVersion E packageManager w = (Ok reference, w1) ∧
     network_calls (trace w1) =
       network_calls (trace w) ++
       [FetchLatestStableVersion (def_fetchLatestFrom definition)] ∧
     Engine.getDefaultVersion E packageManager w1
       = (Ok reference, log ReadLastKnownGood w1)).
Proof.
  intros value content Hd Hne Hload Hplain Hparse.
  assert (Hback : storeOfContent E content !! packageManager = Some reference).
  { subst content value.
    rewrite storeOfContent_plain by (by try apply store_set_plain).
    apply (store_set_lookup store packageManager (Some reference)). }
  split.
  - intros w1. unfold Engine.activatePackageManager.
    rewrite (bind_ok _ _ _ _ _ Hload).
    destruct (decide (store !! packageManager = Some reference)) as [Hin | Hout].
    + rewrite activate_already by done. intros [= <-].
      destruct (getLastKnownGood_entry E w w0 store _ _ Hload Hin)
        as (-> & raw & Hfile & Hstore).
      apply (getDefaultVersion_stored E _ definition _ raw); try done.
      by rewrite Hstore.
    + rewrite activate_fresh by done. cbn [snd loc_name loc_reference].
      intros (_ & _ & ->)%createLastKnownGoodFile_inv.
      by apply (getDefaultVersion_stored E _ definition _ content).
  - intros Hnone Hlatest Hfetch Hm Hw.
    assert (Hout : store !! packageManager ≠ Some reference).
    { destruct Hnone as [-> | ->]; congruence. }
    eexists. split; [| split].
    + unfold Engine.getDefaultVersion.
      rewrite Hd, (bind_ok _ _ _ _ _ Hload).
      rewrite getLastKnownGoodFromFileContent_lookup.
      rewrite if_truthy_no by done. rewrite env_is_false by done.
      unfold mbind at 1, M_bind at 1, call at 1. rewrite Hfetch.
      unfold mbind, M_bind, try_catch.
      rewrite activate_fresh by done. cbn [snd loc_name loc_reference].
      rewrite createLastKnownGoodFile_ok by done. reflexivity.
    + simpl. rewrite getLastKnownGood_run in Hload.
      injection Hload as _ <-. simpl.
      rewrite <- !app_assoc, !network_calls_app. reflexivity.
    + by apply (getDefaultVersion_stored E _ definition _ content).
Qed.

(** On the example: no file yet; yarn 1.22.19 is activated, and is then the
    default; or the latest yarn is fetched once, and is then the default. *)
Lemma activated_is_default_witness :
  (∀ w1,
     Engine.activatePackageManager Demo.plain Demo.yarnClassic Demo.absent
       = (Ok tt, w1) →
     Engine.getDefaultVersion Demo.plain "yarn" w1
       = (Ok "1.22.19", log ReadLastKnownGood w1)) ∧
  ∃ w1,
    Engine.getDefaultVersion Demo.plain "yarn" Demo.absent
      = (Ok "1.22.19", w1) ∧
    network_calls (trace w1) = [FetchLatestStableVersion Demo.legacy] ∧
    Engine.getDefaultVersion Demo.plain "yarn" w1
      = (Ok "1.22.19", log ReadLastKnownGood w1).
Proof.
  destruct (activated_is_default Demo.plain "yarn" "1.22.19" Demo.yarn
              Demo.absent (log ReadLastKnownGood Demo.absent) ∅
              eq_refl ltac:(discriminate) eq_refl eq_refl
              ltac:(vm_compute; reflexivity)) as [Hactivated Hfetched].
  split; [exact Hactivated |].
  apply Hfetched; [by left | discriminate | reflexivity..].
Defined.

(** X10. An activation that fails writes nothing further. When the file
    cannot be read (for another reason than its absence) the error is thrown
    with nothing done but the read; when the entry has to be set and the home
    folder cannot be created, the error is thrown and the file is not
    written; when the write itself is refused, its error is thrown. Unlike
    the recording of [getDefaultVersion], nothing is swallowed. *)
Theorem activatePackageManager_failures (E : Env) (locator : Locator)
    (w : World) :
  (∀ e, lkg_file w = Throw e → exn_code e ≠ Some "ENOENT" →
     Engine.activatePackageManager E locator w
       = (Throw e, log ReadLastKnownGood w)) ∧
  (∀ store w0,
     getLastKnownGood E w = (Ok store, w0) →
     store !! loc_name locator ≠ loc_reference locator →
     let content :=
       JSON_stringify E
         (json_of_store
            (store_set store (loc_name locator) (loc_reference locator)))
       +:+ newline in
     (∀ e, fs_mkdir E = Throw e →
        Engine.activatePackageManager E locator w
          = (Throw e, log MkdirHome w0)) ∧
     (∀ e, fs_mkdir E = Ok tt → fs_writeFile E content = Throw e →
        (Engine.activatePackageManager E locator w).1 = Throw e ∧
        trace (Engine.activatePackageManager E locator w).2
          = trace w0 ++ [MkdirHome; WriteLastKnownGood content])).
Proof.
  split.
  - intros e Hfile Hcode. unfold Engine.activatePackageManager.
    apply bind_throw. rewrite getLastKnownGood_run, Hfile.
    by rewrite bool_decide_eq_false_2.
  - intros store w0 Hload Hout content.
    unfold Engine.activatePackageManager.
    rewrite (bind_ok _ _ _ _ _ Hload). rewrite activate_fresh by done.
    simpl. fold content. unfold createLastKnownGoodFile. fold content.
    split.
    + intros e Hm. run. by rewrite Hm.
    + intros e Hm Hw. unfold writeLastKnownGoodFile. run.
      rewrite Hm, Hw. simpl. split; [done |]. by rewrite <- app_assoc.
Qed.

(** On the example: the home folder is read-only and yarn 1.22.19 is to be
    activated. *)
Lemma activatePackageManager_failures_witness :
  (Engine.activatePackageManager Demo.readOnlyHome Demo.yarnClassic
     Demo.absent).1 = Throw (NodeError "EACCES").
Proof.
  destruct (activatePackageManager_failures Demo.readOnlyHome Demo.yarnClassic
              Demo.absent) as [_ H].
  destruct (H ∅ (log ReadLastKnownGood Demo.absent) eq_refl
              ltac:(discriminate)) as [_ Hwrite].
  apply (Hwrite (NodeError "EACCES") eq_refl eq_refl).
Defined.

(** ** The spec of a locator *)

Lemma find_skip {A} (P : A → bool) (l1 l2 : list A) :
  (∀ x, x ∈ l1 → P x = false) → find P (l1 ++ l2) = find P l2.
Proof.
  induction l1 as [| x l1 IH]; intros H; simpl; [done |].
  rewrite (H x) by (by left). apply IH. intros y Hy. apply H. by right.
Qed.

Lemma find_elem {A} (P : A → bool) (l : list A) (x : A) :
  find P l = Some x → x ∈ l ∧ P x = true.
Proof.
  induction l as [| y l IH]; simpl; [done |].
  destruct (P y) eqn:Hy.
  - intros [= <-]. split; [by left | done].
  - intros [Hin HP]%IH. split; [by right | done].
Qed.

(** X11. The spec of a locator of a supported package manager is the spec of
    the last declared range key that the reference satisfies, prereleases
    included: a key declared later wins over one declared before it. When no
    key is satisfied the lookup fails as a failed assertion that lists the
    keys from the last to the first; and a spec that is returned is always
    the spec of a declared key that the reference satisfies. *)
Theorem getPackageManagerSpecFor_last_match (E : Env) (locator : Locator)
    (definition : PackageManagerDefinition) :
  isSupportedPackageManagerLocator E locator = true →
  definitions (config E) !! loc_name locator = Some definition →
  let satisfied key :=
    satisfiesWithPrereleases E (loc_reference locator) key in
  (∀ before key spec after,
     def_ranges definition = before ++ (key, spec) :: after →
     key ∉ before.*1 →
     satisfied key = true →
     (∀ later, later ∈ after.*1 → satisfied later = false) →
     Engine.getPackageManagerSpecFor E locator = Ok spec) ∧
  ((∀ key, key ∈ Engine.range_keys definition → satisfied key = false) →
   Engine.getPackageManagerSpecFor E locator
     = Throw (Error ("Assertion failed: Specified resolution (" +:+
                     tpl (loc_reference locator) +:+
                     ") isn't supported by any of " +:+
                     join ", " (reverse (Engine.range_keys definition))))) ∧
  (∀ spec,
     Engine.getPackageManagerSpecFor E locator = Ok spec →
     ∃ key, (key, spec) ∈ def_ranges definition ∧ satisfied key = true).
Proof.
  intros Hs Hd satisfied. unfold Engine.getPackageManagerSpecFor.
  rewrite Hs, Hd. simpl. fold satisfied. split; [| split].
  - intros before key spec after Hranges Hfresh Hkey Hlater.
    unfold Engine.range_keys, Engine.ranges_get. rewrite Hranges.
    rewrite fmap_app, fmap_cons, reverse_app, reverse_cons, <- app_assoc.
    rewrite find_skip
      by (intros k Hk; rewrite elem_of_reverse in Hk; by apply Hlater).
    simpl. rewrite Hkey. simpl.
    rewrite find_skip.
    + simpl. by rewrite bool_decide_eq_true_2.
    + intros [k s] Hks. apply bool_decide_eq_false_2. simpl. intros ->.
      apply Hfresh. apply list_elem_of_fmap. by exists (key, s).
  - intros Hnone.
    destruct (find satisfied (reverse (Engine.range_keys definition)))
      as [key |] eqn:Hfind; [| done].
    apply find_elem in Hfind as [Hin Hsat].
    rewrite elem_of_reverse in Hin. by rewrite Hnone in Hsat.
  - intros spec.
    destruct (find satisfied (reverse (Engine.range_keys definition)))
      as [key |] eqn:Hfind; [| done].
    apply find_elem in Hfind as [_ Hsat].
    unfold Engine.ranges_get. simpl.
    destruct (find _ (def_ranges definition)) as [[k s] |] eqn:Hget; [| done].
    simpl. intros [= <-].
    apply find_elem in Hget as [Hin Hk%bool_decide_eq_true].
    simpl in Hk. subst k. by exists key.
Qed.

(** On the example: yarn 1.22.19 satisfies the key [1.x] and not the key
    [>=2.0.0], declared after it. *)
Lemma getPackageManagerSpecFor_last_match_witness :
  Engine.getPackageManagerSpecFor Demo.plain Demo.yarnClassic = Ok Demo.specA.
Proof.
  apply (proj1 (getPackageManagerSpecFor_last_match Demo.plain
                  Demo.yarnClassic Demo.yarn eq_refl eq_refl)
           [] "1.x" Demo.specA [(">=2.0.0", Demo.specB)]).
  - reflexivity.
  - apply not_elem_of_nil.
  - reflexivity.
  - intros later Hlater. each_member Hlater. reflexivity.
Defined.

(** *** The hash of a reference *)

Lemma drop_line_single (s : string) :
  single_line s = true → drop_line s = EmptyString.
Proof.
  induction s as [| c s IH]; simpl; [done |].
  intros [Hc Hs]%andb_true_iff. apply negb_true_iff in Hc. rewrite Hc.
  by apply IH.
Qed.

Lemma strip_hash_again (reference hash : string) :
  single_line reference = true → single_line hash = true →
  strip_hash (strip_hash reference +:+ "+" +:+ hash) = strip_hash reference.
Proof.
  intros Hr Hh. induction reference as [| c r IH].
  - change (drop_line hash = EmptyString). by apply drop_line_single.
  - simpl in Hr. apply andb_true_iff in Hr as [_ Hr]. simpl.
    destruct (nat_of_ascii c =? 43)%nat eqn:Hc.
    + rewrite (drop_line_single r Hr).
      change (drop_line hash = EmptyString). by apply drop_line_single.
    + change (strip_hash (String c (strip_hash r +:+ "+" +:+ hash))
              = String c (strip_hash r)).
      simpl. rewrite Hc. f_equal. by apply IH.
Qed.

(** X12. Preparing a locator. When its spec is found and the installation
    answers, [ensurePackageManager] installs once and returns the install
    information, the spec, and a locator of the same name whose reference is
    the reference without its hash, then [+] and the hash of the
    installation. On a reference of one line the hash is replaced and not
    added: preparing the returned locator again, with the same hash, gives
    the same reference. When the spec is not found nothing is installed. *)
Theorem ensurePackageManager_fixes_hash (E : Env) (locator : Locator)
    (w : World) :
  (∀ e, Engine.getPackageManagerSpecFor E locator = Throw e →
     Engine.ensurePackageManager E locator w = (Throw e, w)) ∧
  (∀ spec reference info,
     Engine.getPackageManagerSpecFor E locator = Ok spec →
     loc_reference locator = Some reference →
     installVersion E locator spec = Ok info →
     let fixed :=
       {| loc_name := loc_name locator;
          loc_reference :=
            Some (strip_hash reference +:+ "+" +:+ install_hash info) |} in
     Engine.ensurePackageManager E locator w
       = (Ok {| prepared_install := info;
                prepared_locator := fixed;
                prepared_spec := spec |},
          log (InstallVersion locator spec) w) ∧
     (single_line reference = true →
      single_line (install_hash info) = true →
      ∀ spec' w',
        Engine.getPackageManagerSpecFor E fixed = Ok spec' →
        installVersion E fixed spec' = Ok info →
        Engine.ensurePackageManager E fixed w'
          = (Ok {| prepared_install := info;
                   prepared_locator := fixed;
                   prepared_spec := spec' |},
             log (InstallVersion fixed spec') w'))).
Proof.
  split.
  - intros e Hspec. unfold Engine.ensurePackageManager. run.
    by rewrite Hspec.
  - intros spec reference info Hspec Href Hinstall fixed.
    assert (Hrun : ∀ l s r i w0,
      Engine.getPackageManagerSpecFor E l = Ok s →
      loc_reference l = Some r →
      installVersion E l s = Ok i →
      Engine.ensurePackageManager E l w0
        = (Ok {| prepared_install := i;
                 prepared_locator :=
                   {| loc_name := loc_name l;
                      loc_reference :=
                        Some (strip_hash r +:+ "+" +:+ install_hash i) |};
                 prepared_spec := s |},
           log (InstallVersion l s) w0)).
    { intros l s r i w0 Hs Hr Hi. unfold Engine.ensurePackageManager. run.
      by rewrite Hs, Hi, Hr. }
    split; [by apply Hrun |].
    intros Hline Hhash spec' w' Hspec' Hinstall'.
    rewrite (Hrun fixed spec' _ info w' Hspec' eq_refl Hinstall').
    simpl. by rewrite strip_hash_again.
Qed.

(** On the example: yarn 1.22.19 is prepared, and the prepared locator is
    prepared again. *)
Lemma ensurePackageManager_fixes_hash_witness :
  let fixed := {| loc_name := "yarn";
                  loc_reference := Some "1.22.19+sha1.a1b2c3" |} in
  (Engine.ensurePackageManager Demo.plain Demo.yarnClassic Demo.absent).1
    = Ok {| prepared_install :=
              {| install_location :=
                   "/home/user/.cache/node/corepack/yarn/1.22.19";
                 install_bin := spec_bin Demo.specA;
                 install_hash := "sha1.a1b2c3" |};
            prepared_locator := fixed;
            prepared_spec := Demo.specA |} ∧
  (Engine.ensurePackageManager Demo.plain fixed Demo.absent).1
    = Ok {| prepared_install :=
              {| install_location :=
                   "/home/user/.cache/node/corepack/yarn/1.22.19";
                 install_bin := spec_bin Demo.specA;
                 install_hash := "sha1.a1b2c3" |};
            prepared_locator := fixed;
            prepared_spec := Demo.specA |}.
Proof.
  intros fixed.
  destruct (proj2 (ensurePackageManager_fixes_hash Demo.plain
                     Demo.yarnClassic Demo.absent)
              Demo.specA "1.22.19"
              {| install_location :=
                   "/home/user/.cache/node/corepack/yarn/1.22.19";
                 install_bin := spec_bin Demo.specA;
                 install_hash := "sha1.a1b2c3" |})
    as [Hfirst Hagain]; [by vm_compute | done | by vm_compute |].
  split.
  - by rewrite Hfirst.
  - pose proof (Hagain eq_refl eq_refl Demo.specA Demo.absent
                  ltac:(by vm_compute) ltac:(by vm_compute)) as H.
    exact (f_equal fst H).
Defined.

(** ** The install cache and the definitions *)

(** X13. A version found in the install cache ends the resolution. For a
    working descriptor of a tool with a definition, the cache in use and
    holding a version for it, the locator has that version as its reference
    and no listing is fetched: the cache lookup is the only call when the
    descriptor is resolved itself (its range a valid version or a valid
    range), and the only call after the fetch of the tags when the working
    descriptor comes from a tag. *)
Theorem resolveDescriptor_cache_hit (E : Env) (working : Descriptor)
    (definition : PackageManagerDefinition) (w : World) (cached : string) :
  definitions (config E) !! desc_name working = Some definition →
  findInstalledVersion E working = Ok (Some cached) →
  let found := Some {| loc_name := desc_name working;
                       loc_reference := Some cached |} in
  let w' := log (FindInstalledVersion working) w in
  (isSupportedPackageManagerDescriptor E working = true →
   truthy (semverValid E (desc_range working)) = true ∨
     truthy (semverValidRange E (desc_range working)) = true →
   ∀ allowTags,
     Engine.resolveDescriptor E working allowTags true w = (Ok found, w') ∧
     network_calls (trace w') = network_calls (trace w)) ∧
  (∀ tag w0,
     isSupportedPackageManagerDescriptor E tag = true →
     desc_name tag = desc_name working →
     truthy (semverValid E (desc_range tag)) = false →
     truthy (semverValidRange E (desc_range tag)) = false →
     Engine.resolveTag E definition tag true w0 = (Ok working, w) →
     Engine.resolveDescriptor E tag true true w0 = (Ok found, w')).
Proof.
  intros Hd Hcache found w'.
  assert (Hfinal : Engine.resolveFinal E definition working true w
                   = (Ok found, w')).
  { unfold Engine.resolveFinal. run. by rewrite Hcache. }
  split.
  - intros Hs Hv allowTags. split.
    + by rewrite (resolveDescriptor_no_tag E working definition).
    + subst w'. simpl. rewrite network_calls_app. apply app_nil_r.
  - intros tag w0 Hs Hname Hv Hr Htag.
    rewrite (resolveDescriptor_through_tag E tag definition)
      by (done || by rewrite Hname).
    by rewrite (bind_ok _ _ _ _ _ Htag).
Qed.

(** On the example: yarn 1.22.19 is installed and the range [^1.0.0] is
    asked for. *)
Lemma resolveDescriptor_cache_hit_witness :
  Engine.resolveDescriptor Demo.cached Demo.yarnCaret false true Demo.absent
    = (Ok (Some {| loc_name := "yarn"; loc_reference := Some "1.22.19" |}),
       log (FindInstalledVersion Demo.yarnCaret) Demo.absent).
Proof.
  apply (proj1 (resolveDescriptor_cache_hit Demo.cached Demo.yarnCaret
                  Demo.yarn Demo.absent "1.22.19" eq_refl
                  ltac:(by vm_compute)) eq_refl (or_intror eq_refl) false).
Defined.

(** X14. A request for a package manager that has no definition fails
    before anything is looked up: with no version, as the usage error of an
    unsupported package manager; with a version, as a type error on the
    missing definition. In both cases the world is as it was: no file is
    read, no project is looked for and nothing is fetched. *)
Theorem request_without_definition (E : Env) (request : PackageManagerRequest)
    (cwd : string) (args : list string) (w : World) (name : string) :
  packageManager request = Some name →
  definitions (config E) !! name = None →
  (binaryVersion request = None ∨ binaryVersion request = Some EmptyString →
     Engine.executePackageManagerRequest E request cwd args w
       = (Throw (Engine.unsupported name), w)) ∧
  (∀ version, binaryVersion request = Some version → version ≠ EmptyString →
     ∃ message,
       Engine.executePackageManagerRequest E request cwd args w
         = (Throw (TypeError message), w)).
Proof.
  intros Hpm Hd.
  unfold Engine.executePackageManagerRequest, Engine.requestDescriptor,
    Engine.fallbackFor.
  rewrite Hpm, Hd. split.
  - intros Hno. rewrite if_truthy_no by done.
    unfold Engine.getDefaultVersion. by rewrite Hd.
  - intros version Hv Hne. rewrite Hv, if_truthy_yes by done. by eexists.
Qed.

(** On the example: pnpm, which the configuration does not define. *)
Lemma request_without_definition_witness :
  Engine.executePackageManagerRequest Demo.plain
      {| packageManager := Some "pnpm"; binaryName := "pnpm";
         binaryVersion := None |} "/home/user" ["install"] Demo.absent
    = (Throw (Engine.unsupported "pnpm"), Demo.absent).
Proof.
  apply (request_without_definition Demo.plain
           {| packageManager := Some "pnpm"; binaryName := "pnpm";
              binaryVersion := None |} "/home/user" ["install"] Demo.absent
           "pnpm" eq_refl eq_refl).
  by left.
Defined.

(** ** The order of the range keys *)

Lemma sort_head_same {A} (cmp : A → A → Z) (l1 l2 : list A) :
  (∀ x, x ∈ l1 ↔ x ∈ l2) →
  total_on cmp l1 → transitive_on cmp l1 →
  (∀ a b, a ∈ l1 → b ∈ l1 →
          (cmp a b <= 0)%Z → (cmp b a <= 0)%Z → a = b) →
  head (sort cmp l1) = head (sort cmp l2).
Proof.
  intros Hsame Htot Htr Hanti.
  assert (Htot2 : total_on cmp l2).
  { intros a b Ha Hb. apply Htot; by apply Hsame. }
  assert (Htr2 : transitive_on cmp l2).
  { intros a b c Ha Hb Hc. apply Htr; by apply Hsame. }
  destruct (sort cmp l1) as [| h1 r1] eqn:H1;
    destruct (sort cmp l2) as [| h2 r2] eqn:H2; simpl.
  - done.
  - apply sort_nil in H1 as ->.
    assert (Hin : h2 ∈ l2) by (apply (elem_of_sort cmp); rewrite H2; left).
    apply Hsame in Hin. by apply elem_of_nil in Hin.
  - apply sort_nil in H2 as ->.
    assert (Hin : h1 ∈ l1) by (apply (elem_of_sort cmp); rewrite H1; left).
    apply Hsame in Hin. by apply elem_of_nil in Hin.
  - assert (Hin1 : h1 ∈ l1) by (apply (elem_of_sort cmp); rewrite H1; left).
    assert (Hin2 : h2 ∈ l2) by (apply (elem_of_sort cmp); rewrite H2; left).
    f_equal. apply Hanti; [done | by apply Hsame | |].
    + apply (sort_head_first cmp l1 h1 r1); [done.. | by apply Hsame].
    + apply (sort_head_first cmp l2 h2 r2); [done.. | by apply Hsame].
Qed.

Lemma fetched_all (E : Env) (listing : PackageManagerSpec → list string)
    (specs : list PackageManagerSpec) :
  (∀ spec, spec ∈ specs →
     fetchAvailableVersions E (getRegistryFromPackageManagerSpec E spec)
       = Ok (listing spec)) →
  Forall2 (λ spec versions,
      fetchAvailableVersions E (getRegistryFromPackageManagerSpec E spec)
        = Ok versions) specs (listing <$> specs).
Proof.
  induction specs as [| spec specs IH]; intros H; simpl; constructor.
  - apply H. by left.
  - apply IH. intros s Hs. apply H. by right.
Qed.

(** X15. The order in which the range keys are declared does not change the
    version that the listings give, as long as [semverRcompare] tells the
    candidates apart. For two definitions with the same ranges in another
    order (the keys all different), a working descriptor that is not an exact
    version, no version from the install cache and every listing answering:
    when the comparator orders the candidates and gives equal rank to no two
    different candidates, the resolution from the listings ends in the same
    locator, or in [null], for both. Only the order of the fetches
    differs. *)
Theorem resolution_order_independent (E : Env)
    (definition definition' : PackageManagerDefinition)
    (working : Descriptor) (useCache : bool) (w : World)
    (cached : option string) (listing : PackageManagerSpec → list string) :
  def_ranges definition' ≡ₚ def_ranges definition →
  NoDup (Engine.range_keys definition) →
  truthy (semverValid E (desc_range working)) = false →
  findInstalledVersion E working = Ok cached →
  cached = None ∨ useCache = false →
  (∀ spec, spec ∈ (def_ranges definition).*2 →
     fetchAvailableVersions E (getRegistryFromPackageManagerSpec E spec)
       = Ok (listing spec)) →
  let candidates :=
    uniq (concat (filter (λ v,
        satisfiesWithPrereleases E (Some v) (desc_range working) = true)
      <$> (listing <$> (def_ranges definition).*2))) in
  total_on (semverRcompare E) candidates →
  transitive_on (semverRcompare E) candidates →
  (∀ a b, a ∈ candidates → b ∈ candidates →
     (semverRcompare E a b <= 0)%Z → (semverRcompare E b a <= 0)%Z → a = b) →
  (Engine.resolveFinal E definition working useCache w).1
    = (Engine.resolveFinal E definition' working useCache w).1.
Proof.
  intros Hperm Hnodup Hv Hcache Hmiss Hfetch candidates Htot Htr Hanti.
  assert (Hnodup' : NoDup (Engine.range_keys definition')).
  { unfold Engine.range_keys in *. by rewrite Hperm. }
  assert (Hspecs : (def_ranges definition').*2 ≡ₚ (def_ranges definition).*2)
    by (by rewrite Hperm).
  rewrite (resolveFinal_range E definition working useCache w cached
             (listing <$> (def_ranges definition).*2)); try done.
  2:{ rewrite declared_specs_ranges by done. by apply fetched_all. }
  rewrite (resolveFinal_range E definition' working useCache w cached
             (listing <$> (def_ranges definition').*2)); try done.
  2:{ rewrite declared_specs_ranges by done. apply fetched_all.
      intros spec Hs. apply Hfetch. by rewrite <- Hspecs. }
  simpl. fold candidates.
  set (candidates' := uniq (concat (filter _ <$>
                        (listing <$> (def_ranges definition').*2)))).
  assert (Hhead : head (sort (semverRcompare E) candidates)
                  = head (sort (semverRcompare E) candidates')).
  { apply sort_head_same; try done. intros v. subst candidates candidates'.
    rewrite !(elem_of_union
                (λ v, satisfiesWithPrereleases E (Some v) (desc_range working))).
    split; intros (versions & Hin & Hrest); exists versions;
      (split; [| done]).
    - by rewrite Hspecs.
    - by rewrite <- Hspecs. }
  destruct (sort (semverRcompare E) candidates);
    destruct (sort (semverRcompare E) candidates'); simpl in Hhead;
    congruence.
Qed.

(** On the example: the two range keys of yarn declared in the other
    order, and the range [^1.0.0]. *)
Lemma resolution_order_independent_witness :
  (Engine.resolveFinal Demo.plain Demo.yarn Demo.yarnCaret true
     Demo.absent).1
    = (Engine.resolveFinal Demo.plain
         {| def_default := def_default Demo.yarn;
            def_fetchLatestFrom := def_fetchLatestFrom Demo.yarn;
            def_transparent := def_transparent Demo.yarn;
            def_ranges := [(">=2.0.0", Demo.specB); ("1.x", Demo.specA)] |}
         Demo.yarnCaret true Demo.absent).1.
Proof.
  assert (Hcandidates :
    uniq (concat (filter (λ v,
        satisfiesWithPrereleases Demo.plain (Some v)
          (desc_range Demo.yarnCaret) = true)
      <$> ((λ spec, match Demo.versionsOf (spec_registry spec) with
                    | Ok versions => versions
                    | Throw _ => []
                    end) <$> (def_ranges Demo.yarn).*2)))
    = ["1.21.0"; "1.22.19"]) by (vm_compute; reflexivity).
  apply (resolution_order_independent Demo.plain Demo.yarn _ Demo.yarnCaret
           true Demo.absent None
           (λ spec, match Demo.versionsOf (spec_registry spec) with
                    | Ok versions => versions
                    | Throw _ => []
                    end)).
  - apply perm_swap.
  - repeat constructor; set_solver.
  - reflexivity.
  - reflexivity.
  - by left.
  - intros spec Hspec. each_member Hspec; reflexivity.
  - rewrite Hcandidates. intros a b Ha Hb.
    each_member Ha; each_member Hb; vm_compute; intuition congruence.
  - rewrite Hcandidates. intros a b c Ha Hb Hc.
    each_member Ha; each_member Hb; each_member Hc; vm_compute;
      intuition congruence.
  - rewrite Hcandidates. intros a b Ha Hb.
    each_member Ha; each_member Hb; vm_compute; intuition congruence.
Defined.

(** ** A listing that fails *)

Lemma fetchRange_any (E : Env) (definition : PackageManagerDefinition)
    (descriptor : Descriptor) (key : string) (spec : PackageManagerSpec)
    (w : World) :
  Engine.ranges_get definition (Some key) = Some spec →
  Engine.fetchRange E definition descriptor key w =
    (match fetchAvailableVersions E
             (getRegistryFromPackageManagerSpec E spec) with
     | Ok versions =>
         Ok (filter (λ version,
               satisfiesWithPrereleases E (Some version)
                 (desc_range descriptor) = true) versions)
     | Throw e => Throw e
     end,
     log (FetchAvailableVersions (getRegistryFromPackageManagerSpec E spec)) w).
Proof.
  intros Hspec. unfold Engine.fetchRange. rewrite Hspec. run. simpl.
  by destruct (fetchAvailableVersions E _).
Qed.

(** Every listing is asked for, whatever the others answer; and one that
    fails makes the whole fail. *)
Lemma promise_all_fetch_any (E : Env) (definition : PackageManagerDefinition)
    (descriptor : Descriptor) (keys : list string) :
  ∀ w,
    (∀ key, key ∈ keys →
            is_Some (Engine.ranges_get definition (Some key))) →
    let specs := omap (λ key, Engine.ranges_get definition (Some key)) keys in
    let run := promise_all
                 (Engine.fetchRange E definition descriptor <$> keys) w in
    run.2 = logs ((λ spec, FetchAvailableVersions
                             (getRegistryFromPackageManagerSpec E spec))
                    <$> specs) w ∧
    ((∃ spec e, spec ∈ specs ∧
        fetchAvailableVersions E (getRegistryFromPackageManagerSpec E spec)
          = Throw e) →
     ∃ spec' e', spec' ∈ specs ∧
        fetchAvailableVersions E (getRegistryFromPackageManagerSpec E spec')
          = Throw e' ∧
        run.1 = Throw e').
Proof.
  induction keys as [| key keys IH]; intros w Hkeys; cbn zeta.
  - simpl. split; [by rewrite logs_nil |].
    intros (spec & e & Hin & _). by apply elem_of_nil in Hin.
  - destruct (Hkeys key) as [spec Hspec]; [by left |].
    cbn -[Engine.ranges_get Engine.fetchRange]. rewrite Hspec.
    rewrite (fetchRange_any E definition descriptor key spec w Hspec).
    destruct (IH (log (FetchAvailableVersions
                         (getRegistryFromPackageManagerSpec E spec)) w))
      as [Hworld Hfail]; [intros k Hk; apply Hkeys; by right |].
    cbn zeta in Hworld, Hfail.
    destruct (promise_all _ _) as [rs w2]. simpl in Hworld, Hfail.
    split.
    + simpl. by rewrite Hworld, logs_log.
    + intros (s & e & Hin & Hthrow). simpl.
      destruct (fetchAvailableVersions E
                  (getRegistryFromPackageManagerSpec E spec))
        as [versions | e0] eqn:Hhead.
      * apply elem_of_cons in Hin as [-> | Hin]; [congruence |].
        destruct Hfail as (s' & e' & Hin' & Hthrow' & ->); [by exists s, e |].
        exists s', e'. split; [by right | done].
      * exists spec, e0. split; [by left | done].
Qed.

(** X16. One listing that fails makes the resolution from the listings
    fail, whatever the other listings hold. For a working descriptor that is
    not an exact version, with no version from the install cache: when the
    fetch of the listing of one declared range throws, the resolution throws
    the error of a failing listing, after the listing of every declared range
    was asked for. *)
Theorem failing_listing_fails_resolution (E : Env) (working : Descriptor)
    (definition : PackageManagerDefinition) (useCache : bool) (w : World)
    (cached : option string) (spec : PackageManagerSpec) (e : exn) :
  definitions (config E) !! desc_name working = Some definition →
  truthy (semverValid E (desc_range working)) = false →
  findInstalledVersion E working = Ok cached →
  cached = None ∨ useCache = false →
  spec ∈ declared_specs definition →
  fetchAvailableVersions E (getRegistryFromPackageManagerSpec E spec)
    = Throw e →
  let w' :=
    logs (FindInstalledVersion working ::
          ((λ spec, FetchAvailableVersions
                      (getRegistryFromPackageManagerSpec E spec))
             <$> declared_specs definition)) w in
  ∃ spec' e',
    spec' ∈ declared_specs definition ∧
    fetchAvailableVersions E (getRegistryFromPackageManagerSpec E spec')
      = Throw e' ∧
    Engine.resolveFinal E definition working useCache w = (Throw e', w') ∧
    (isSupportedPackageManagerDescriptor E working = true →
     truthy (semverValidRange E (desc_range working)) = true →
     ∀ allowTags,
       Engine.resolveDescriptor E working allowTags useCache w
         = (Throw e', w')).
Proof.
  intros Hd Hv Hcache Hmiss Hin Hthrow w'.
  destruct (promise_all_fetch_any E definition working
              (Engine.range_keys definition)
              (log (FindInstalledVersion working) w))
    as [Hworld Hfail]; [by apply ranges_get_key |].
  cbn zeta in Hworld, Hfail. fold (declared_specs definition) in Hworld, Hfail.
  destruct Hfail as (spec' & e' & Hin' & Hthrow' & Hresult);
    [by exists spec, e |].
  exists spec', e'. split; [done |]. split; [done |].
  assert (Hfinal : Engine.resolveFinal E definition working useCache w
                   = (Throw e', w')).
  { unfold Engine.resolveFinal.
    unfold mbind at 1, M_bind at 1, call at 1. rewrite Hcache.
    assert (bool_decide (cached ≠ None) && useCache = false) as ->.
    { destruct Hmiss as [-> | ->]; [done | by rewrite andb_false_r]. }
    rewrite Hv. unfold mbind, M_bind.
    destruct (promise_all _ _) as [r w2]. simpl in Hworld, Hresult.
    subst r w2. subst w'. by rewrite logs_log. }
  split; [done |]. intros Hs Hr allowTags.
  by rewrite (resolveDescriptor_no_tag E working definition) by auto.
Qed.

(** On the example: the registry of the second range of yarn does not
    answer, and the range [^1.0.0], that the first registry could satisfy, is
    not resolved. *)
Lemma failing_listing_fails_resolution_witness :
  Engine.resolveDescriptor Demo.halfDown Demo.yarnCaret false true Demo.absent
    = (Throw (Error "Server answered with HTTP 404"),
       logs [FindInstalledVersion Demo.yarnCaret;
             FetchAvailableVersions Demo.legacy;
             FetchAvailableVersions (NpmRegistry "gone")] Demo.absent).
Proof.
  destruct (failing_listing_fails_resolution Demo.halfDown Demo.yarnCaret
              Demo.yarnHalf true Demo.absent None Demo.specGone
              (Error "Server answered with HTTP 404"))
    as (spec' & e' & Hin & Hthrow & _ & Hrun);
    [reflexivity | reflexivity | reflexivity | by left
    | right; left | reflexivity |].
  rewrite (Hrun eq_refl eq_refl false).
  assert (e' = Error "Server answered with HTTP 404") as ->; [| reflexivity].
  change (declared_specs Demo.yarnHalf) with [Demo.specA; Demo.specGone] in Hin.
  each_member Hin; vm_compute in Hthrow; congruence.
Defined.

(** ** A request that succeeds *)

(** X17. A request that succeeds has run the package manager that was
    requested. Its last two calls are the installation of the locator that
    the resolution gave and the run of that same locator, with the prepared
    installation, the binary name and the arguments of the request; that
    locator, and the prepared one, bear the name of the package manager of
    the request (of the binary when there is none), whatever the project
    pins. *)
Theorem successful_request_runs_requested_tool (E : Env)
    (request : PackageManagerRequest) (cwd : string) (args : list string)
    (w w' : World) :
  Engine.executePackageManagerRequest E request cwd args w = (Ok tt, w') →
  ∃ resolved prepared w0,
    loc_name resolved
      = default (binaryName request) (packageManager request) ∧
    loc_name (prepared_locator prepared) = loc_name resolved ∧
    installVersion E resolved (prepared_spec prepared)
      = Ok (prepared_install prepared) ∧
    runVersion E resolved prepared (binaryName request) args = Ok tt ∧
    w' = logs [InstallVersion resolved (prepared_spec prepared);
               RunVersion resolved prepared (binaryName request) args] w0.
Proof.
  unfold Engine.executePackageManagerRequest, Engine.resolveAndRun.
  unfold mbind at 1, M_bind at 1.
  destruct (Engine.requestDescriptor E request cwd args w)
    as [[descriptor | e] w1] eqn:Hrequest; [| done].
  apply requestDescriptor_name in Hrequest.
  unfold mbind at 1, M_bind at 1.
  destruct (Engine.resolveDescriptor E descriptor true true w1)
    as [[[resolved |] | e] w2] eqn:Hresolve; [| done | done].
  apply resolveDescriptor_name in Hresolve as [Hname _].
  unfold Engine.ensurePackageManager. run.
  destruct (Engine.getPackageManagerSpecFor E resolved) as [spec | e];
    [| done].
  destruct (installVersion E resolved spec) as [info | e] eqn:Hinstall;
    [| done].
  destruct (loc_reference resolved) as [reference |]; [| done].
  destruct (runVersion E resolved _ (binaryName request) args)
    as [[] | e] eqn:Hrun; [| done].
  intros [= <-].
  exists resolved,
    {| prepared_install := info;
       prepared_locator :=
         {| loc_name := loc_name resolved;
            loc_reference :=
              Some (strip_hash reference +:+ "+" +:+ install_hash info) |};
       prepared_spec := spec |}, w2.
  split; [congruence |]. split; [done |]. split; [exact Hinstall |].
  split; [exact Hrun |]. by rewrite log_logs, logs_log.
Qed.

(** On the example: yarn requested at [^1.0.0] outside any project. *)
Lemma successful_request_runs_requested_tool_witness :
  ∃ resolved prepared w0,
    loc_name resolved = "yarn" ∧
    loc_name (prepared_locator prepared) = loc_name resolved ∧
    installVersion Demo.plain resolved (prepared_spec prepared)
      = Ok (prepared_install prepared) ∧
    runVersion Demo.plain resolved prepared "yarn" ["install"] = Ok tt ∧
    (Engine.executePackageManagerRequest Demo.plain
       {| packageManager := Some "yarn"; binaryName := "yarn";
          binaryVersion := Some "^1.0.0" |}
       "/home/user" ["install"] Demo.absent).2
      = logs [InstallVersion resolved (prepared_spec prepared);
              RunVersion resolved prepared "yarn" ["install"]] w0.
Proof.
  destruct (Engine.executePackageManagerRequest Demo.plain
              {| packageManager := Some "yarn"; binaryName := "yarn";
                 binaryVersion := Some "^1.0.0" |}
              "/home/user" ["install"] Demo.absent) as [r w'] eqn:Hrun.
  assert (r = Ok tt) as -> by (vm_compute in Hrun; congruence).
  destruct (successful_request_runs_requested_tool _ _ _ _ _ _ Hrun)
    as (resolved & prepared & w0 & H1 & H2 & H3 & H4 & H5).
  by exists resolved, prepared, w0.
Defined.
